(** * Electrostatics widget: field engine, hit-testing, settings and persistence

    The widget (Electrostatics2.html) is documented in the repository by its
    review and fix notes, which quote the deciding lines of the code:
    [pickCharge], the clip selection of [computeHeatmap], the settings input
    handlers and the numerical constants.  Those quoted lines are embedded
    here as they are written; the parts the notes only describe in words, or
    that only the design text describes, are marked as such.

    The page script of the repository (script.js: search, filter buttons,
    keyboard navigation, navigation highlighting, scroll indicator, parallax
    and the animated counter) is embedded in [Page]. *)

From Stdlib Require Import List Bool Arith Lia ZArith QArith Qabs Reals Psatz Qreals.
From Stdlib Require Import Qround Sorted.
From Stdlib Require Ascii String.
Import ListNotations.

Set Implicit Arguments.

(** ** JavaScript numbers

    A finite number is a rational; the three non-finite values of a JS Number
    are kept apart because the settings boundary and the scene loader have to
    tell them from finite ones. *)
Module Num.

Inductive t : Type :=
| Fin (v : Q)
| PInf
| NInf
| NaN.

(** [isFinite(v)] *)
Definition isFinite (v : t) : bool :=
  match v with
  | Fin _ => true
  | _ => false
  end.

(** Truthiness of a Number: [0] and [NaN] are falsy, the rest is truthy. *)
Definition truthy (v : t) : bool :=
  match v with
  | Fin q => negb (Qeq_bool q 0)
  | PInf | NInf => true
  | NaN => false
  end.

(** [a || b] on Numbers. *)
Definition or (a b : t) : t := if truthy a then a else b.

(** [a <= b], false as soon as one side is [NaN]. *)
Definition leb (a b : t) : bool :=
  match a, b with
  | NaN, _ | _, NaN => false
  | NInf, _ => true
  | _, PInf => true
  | Fin x, Fin y => Qle_bool x y
  | _, _ => false
  end.

(** [Math.min(a, b)]: [NaN] if either argument is [NaN]. *)
Definition min (a b : t) : t :=
  match a, b with
  | NaN, _ | _, NaN => NaN
  | _, _ => if leb a b then a else b
  end.

(** [Math.abs(v)] *)
Definition abs (v : t) : t :=
  match v with
  | Fin q => Fin (Qabs q)
  | PInf | NInf => PInf
  | NaN => NaN
  end.

End Num.

(** ** Scene model *)

Module Charge.
(** [{ id, x, y, q }]: positions come from pointer coordinates and are
    finite; [q] is whatever Number the magnitude field last stored. *)
Record t : Type := mk { id : nat; x : Q; y : Q; q : Num.t }.
End Charge.

(** The host window, as far as [pickCharge] looks at it:
    ['ontouchstart' in window]. *)
Record Window : Type := { ontouchstart_in_window : bool }.

Definition touchDevice : Window := {| ontouchstart_in_window := true |}.
Definition desktopDevice : Window := {| ontouchstart_in_window := false |}.

(** ** Hit-testing: [pickCharge] *)

(** [Math.hypot(dx, dy) <= r] for a radius [r >= 0], decided exactly on
    rationals by comparing squares (see [hypot_le_sqrt] for the link with the
    square root). *)
Definition hypot_le (dx dy r : Q) : bool :=
  Qle_bool (dx * dx + dy * dy) (r * r).

Definition mouseHitRadius : Q := 14.
Definition touchHitRadius : Q := 20.

(** [const hitRadius = 'ontouchstart' in window ? 20 : 14;] *)
Definition hitRadius (w : Window) : Q :=
  if ontouchstart_in_window w then touchHitRadius else mouseHitRadius.

(** The test of the loop body for one charge. *)
Definition withinRadius (r x y : Q) (c : Charge.t) : bool :=
  hypot_le (x - Charge.x c) (y - Charge.y c) r.

(** [for (let i = charges.length - 1; i >= 0; i--) { ... }]: [n] is [i + 1],
    so [n = 0] is the exit of the loop, which returns [null]. *)
Fixpoint pickCharge_loop (r : Q) (charges : list Charge.t) (x y : Q) (n : nat)
  : option nat :=
  match n with
  | O => None
  | S i =>
      match nth_error charges i with
      | Some c =>
          if withinRadius r x y c then Some (Charge.id c)
          else pickCharge_loop r charges x y i
      | None => pickCharge_loop r charges x y i
      end
  end.

Definition pickCharge (w : Window) (charges : list Charge.t) (x y : Q)
  : option nat :=
  pickCharge_loop (hitRadius w) charges x y (length charges).

(** The two native events the unified handlers receive.  [getCanvasCoords]
    reads [e.clientX/Y] of a mouse event and [e.touches[0].clientX/Y] of a
    touch event; the offset of the canvas rectangle is left out. *)
Inductive PointerEvent : Type :=
| MouseEvent (clientX clientY : Q)
| TouchEvent (touches : list (Q * Q)).

Definition getCanvasCoords (e : PointerEvent) : option (Q * Q) :=
  match e with
  | MouseEvent cx cy => Some (cx, cy)
  | TouchEvent (p :: _) => Some p
  | TouchEvent [] => None
  end.

(** The hit-test of [handlePointerDown]: [pickCharge] takes the coordinates
    only, so nothing of the event but its point reaches it. *)
Definition handlePointerDown_pick (w : Window) (charges : list Charge.t)
  (e : PointerEvent) : option nat :=
  match getCanvasCoords e with
  | Some (px, py) => pickCharge w charges px py
  | None => None
  end.

(** A mouse-origin and a touch-origin pointer-down at the same point. *)
Definition mouseDownAt (px py : Q) : PointerEvent := MouseEvent px py.
Definition touchDownAt (px py : Q) : PointerEvent := TouchEvent [(px, py)].

(** ** Scene, display settings and the heatmap pass *)

(** The charges in creation order, the weak selection reference, and the two
    display settings.  In the widget the settings live in the input elements
    [autoScaleEl] (its [checked] flag) and [displayRangeEl2] (its [value]); the
    text of the range field is represented by the Number [parseFloat] reads
    from it. *)
Record Scene : Type := {
  charges : list Charge.t;
  selectedId : option nat;
  autoScale : bool;
  rangeV : Num.t
}.

(** The widget state the render loop and the handlers share. *)
Record App : Type := {
  scene : Scene;
  heatDirty : bool;
  Vclip : Num.t
}.

(** [parseFloat(displayRangeEl2.value)||40] *)
Definition userRange (s : Scene) : Num.t := Num.or (rangeV s) (Num.Fin 40).

(** The clip selection of [computeHeatmap] after the range fix:
    [else { Vclip = userRange; }].
    Modelled from the spec: the auto-scale branch, which the notes do not
    quote, takes the maximum magnitude observed on the grid this pass
    ([lastAmp]). *)
Definition clipValue (auto : bool) (lastAmp range : Num.t) : Num.t :=
  if auto then lastAmp else range.

(** The same selection before the fix:
    [else { Vclip = Math.min(lastAmp, userRange); }]. *)
Definition clipValue_before (auto : bool) (lastAmp range : Num.t) : Num.t :=
  if auto then lastAmp else Num.min lastAmp range.

(** [displayRangeEl2.value = ...] *)
Definition write_displayRange (v : Num.t) (s : Scene) : Scene :=
  {| charges := charges s; selectedId := selectedId s;
     autoScale := autoScale s; rangeV := v |}.

(** One pass of [computeHeatmap].  [lastAmp] is the maximum magnitude the
    sampling loop finds on the grid.  After the clip is chosen the pass stores
    a value into [displayRangeEl2.value] (lines 369-371 of the widget, reported
    by the review as still present); the stored value is taken to be the clip.
    The pass ends by clearing the dirty flag. *)
Definition computeHeatmap (lastAmp : Num.t) (st : App) : App :=
  let clip := clipValue (autoScale (scene st)) lastAmp (userRange (scene st)) in
  {| scene := write_displayRange clip (scene st);
     heatDirty := false;
     Vclip := clip |}.

(** The render loop: [if(heatDirty) computeHeatmap();] and then drawing, which
    touches neither the scene nor the inputs. *)
Definition render (lastAmp : Num.t) (st : App) : App :=
  if heatDirty st then computeHeatmap lastAmp st else st.

(** ** Settings boundary *)

(** The validation the review asks for and the widget lacks:
    [!isFinite(v) || Math.abs(v) > 100] is to be refused. *)
Definition saneMagnitude (v : Num.t) : bool :=
  Num.isFinite v && Num.leb (Num.abs v) (Num.Fin 100).

(** A display range is sane when it is a finite positive number. *)
Definition saneRange (v : Num.t) : bool :=
  match v with
  | Num.Fin r => negb (Qle_bool r 0)
  | _ => false
  end.

Definition setMagnitude (sel : option nat) (v : Num.t) (c : Charge.t)
  : Charge.t :=
  match sel with
  | Some i =>
      if Nat.eqb (Charge.id c) i
      then Charge.mk (Charge.id c) (Charge.x c) (Charge.y c) v
      else c
  | None => c
  end.

(** The [input] handler of [selectedChargeMagEl]:
    [const v = parseFloat(selectedChargeMagEl.value);] is stored as the
    magnitude of the selected charge with no check of any kind, and the
    heatmap is marked stale. *)
Definition selectedChargeMagEl_input (v : Num.t) (st : App) : App :=
  let s := scene st in
  {| scene := {| charges := map (setMagnitude (selectedId s) v) (charges s);
                 selectedId := selectedId s;
                 autoScale := autoScale s;
                 rangeV := rangeV s |};
     heatDirty := true;
     Vclip := Vclip st |}.

(** The [input] handler of [displayRangeEl2]: the field holds what was typed,
    the handler marks the heatmap stale. *)
Definition displayRangeEl2_input (v : Num.t) (st : App) : App :=
  {| scene := write_displayRange v (scene st);
     heatDirty := true;
     Vclip := Vclip st |}.

(** Magnitude of the charge with handle [i], if it is live. *)
Definition magnitudeOf (i : nat) (s : Scene) : option Num.t :=
  option_map Charge.q
    (find (fun c => Nat.eqb (Charge.id c) i) (charges s)).

(** ** Persistence contract *)

(** [{ x, y, q }] and [{ charges, autoScale, rangeV }] as they arrive from the
    store: every numeric field may hold any Number. *)
Record SavedCharge : Type := { s_x : Num.t; s_y : Num.t; s_q : Num.t }.

Record SavedScene : Type := {
  s_charges : list SavedCharge;
  s_autoScale : bool;
  s_rangeV : Num.t
}.

Definition saveCharge (c : Charge.t) : SavedCharge :=
  {| s_x := Num.Fin (Charge.x c); s_y := Num.Fin (Charge.y c);
     s_q := Charge.q c |}.

(** Modelled from the spec: the persistence collaborator is not part of the
    sources; a Scene serializes to the mapping
    [{ charges: [{x,y,q}, ...], autoScale, rangeV }]. *)
Definition saveScene (s : Scene) : SavedScene :=
  {| s_charges := map saveCharge (charges s);
     s_autoScale := autoScale s;
     s_rangeV := rangeV s |}.

(** The scene a widget starts with: no charge, nothing selected, auto-scale
    on and the range the code falls back to ([||40]). *)
Definition defaultScene : Scene :=
  {| charges := []; selectedId := None; autoScale := true;
     rangeV := Num.Fin 40 |}.

(** Modelled from the spec: one stored charge is accepted only when its
    three numbers are finite; the handle given to it is its position in the
    stored list (handles are not part of the mapping). *)
Definition loadCharge (i : nat) (c : SavedCharge) : option Charge.t :=
  match s_x c, s_y c, s_q c with
  | Num.Fin vx, Num.Fin vy, Num.Fin vq => Some (Charge.mk i vx vy (Num.Fin vq))
  | _, _, _ => None
  end.

(** Modelled from the spec: the stored charges are accepted all together or
    not at all. *)
Fixpoint loadCharges (i : nat) (l : list SavedCharge)
  : option (list Charge.t) :=
  match l with
  | [] => Some []
  | c :: rest =>
      match loadCharge i c with
      | Some c' =>
          match loadCharges (S i) rest with
          | Some rest' => Some (c' :: rest')
          | None => None
          end
      | None => None
      end
  end.

(** Modelled from the spec: the loader is not part of the sources.  Load
    validates that the numeric fields are finite and falls back to the
    default scene on malformed input. *)
Definition loadScene (m : SavedScene) : Scene :=
  match loadCharges 0 (s_charges m), s_rangeV m with
  | Some cs, Num.Fin r =>
      {| charges := cs; selectedId := None;
         autoScale := s_autoScale m; rangeV := Num.Fin r |}
  | _, _ => defaultScene
  end.

(** What a user can observe of a scene: the charges as (x, y, q) in order,
    and the display settings. *)
Definition observable (s : Scene) : list (Q * Q * Num.t) * bool * Num.t :=
  (map (fun c => (Charge.x c, Charge.y c, Charge.q c)) (charges s),
   autoScale s, rangeV s).

Definition finiteCharge (c : SavedCharge) : bool :=
  Num.isFinite (s_x c) && Num.isFinite (s_y c) && Num.isFinite (s_q c).

(** A stored scene is malformed when one of its numbers is not finite. *)
Definition malformed (m : SavedScene) : bool :=
  negb (forallb finiteCharge (s_charges m) && Num.isFinite (s_rangeV m)).

(** A well-formed Scene: finite magnitudes, a positive finite range. *)
Definition wellFormed (s : Scene) : Prop :=
  Forall (fun c => Num.isFinite (Charge.q c) = true) (charges s)
  /\ saneRange (rangeV s) = true.

(** ** Field solver *)

Module FieldSolver.

Local Open Scope R_scope.

(** A charge as the solver reads it from the per-frame snapshot: position
    and signed magnitude as real numbers. *)
Record Source : Type := { sx : R; sy : R; sq : R }.

(** What a query returns: the potential and the two field components. *)
Record Sample : Type := { V : R; Ex : R; Ey : R }.

(** [const soften = 0.01;] *)
Definition soften : R := 1 / 100.

(** [Math.hypot(dx, dy)] *)
Definition hypot (dx dy : R) : R := sqrt (dx * dx + dy * dy).

Section Solver.

(** The constant [k] of the contributions; its value is a display unit
    choice that the sources do not give. *)
Variable k : R.

(** Modelled from the spec: the solver function is not part of the
    sources.  [r_i = max(distance(p, p_i), softening_radius)]. *)
Definition radius (x y : R) (c : Source) : R :=
  Rmax (hypot (x - sx c) (y - sy c)) soften.

(** Modelled from the spec: one step of the summation loop, adding the
    contribution of [c] to the running totals:
    [V_i = k q_i / r_i], [E_i = k q_i (p - p_i) / r_i^3]. *)
Definition accumulate (x y : R) (acc : Sample) (c : Source) : Sample :=
  let dx := x - sx c in
  let dy := y - sy c in
  let r := radius x y c in
  {| V := V acc + k * sq c / r;
     Ex := Ex acc + k * sq c * dx / (r * r * r);
     Ey := Ey acc + k * sq c * dy / (r * r * r) |}.

(** Modelled from the spec: the solver iterates the charges in Scene
    order from zero totals. *)
Definition fieldAt (cs : list Source) (x y : R) : Sample :=
  fold_left (accumulate x y) cs {| V := 0; Ex := 0; Ey := 0 |}.




End Solver.

End FieldSolver.

(** ** Flow integrator *)

Module Flow.

Local Open Scope R_scope.
Import FieldSolver.

(** [{ position, age, seedChargeId }] *)
Record Carrier : Type := {
  pos : R * R;
  age : nat;
  seedChargeId : nat
}.

(** [maxSteps=1200] *)
Definition maxSteps : nat := 1200.

(** [const speedBase = 0.5;] *)
Definition speedBase : R := 1 / 2.

Section Integrator.

(** The charge snapshot and the constant of the solver. *)
Variable k : R.
Variable sources : list Source.

(** The configured visible bounds, [0..W] by [0..H]. *)
Variables W H : R.

(** A carrier ends at a sink: within [sinkRadius] of a charge whose
    magnitude is at most [sinkCharge] (a negative threshold). *)
Variables sinkRadius sinkCharge : R.

(** Where a carrier seeded from a given charge restarts. *)
Variable seedPos : nat -> R * R.

Definition inBounds (p : R * R) : bool :=
  (if Rle_dec 0 (fst p) then true else false)
  && (if Rle_dec (fst p) W then true else false)
  && (if Rle_dec 0 (snd p) then true else false)
  && (if Rle_dec (snd p) H then true else false).

Definition nearSink (p : R * R) : bool :=
  existsb
    (fun c =>
       (if Rle_dec (sq c) sinkCharge then true else false)
       && (if Rlt_dec (hypot (fst p - sx c) (snd p - sy c)) sinkRadius
           then true else false))
    sources.

(** [normalize(E)]; a vanishing field leaves the carrier where it is. *)
Definition normalize (e : R * R) : R * R :=
  let m := hypot (fst e) (snd e) in
  if Req_dec_T m 0 then (0, 0) else (fst e / m, snd e / m).

(** Modelled from the spec: the integrator is not part of the sources.
    [step = speedBase * normalize(E(position))], explicit Euler. *)
Definition advance (p : R * R) : R * R :=
  let s := fieldAt k sources (fst p) (snd p) in
  let d := normalize (Ex s, Ey s) in
  (fst p + speedBase * fst d, snd p + speedBase * snd d).

(** Modelled from the spec: a carrier is retired when it exits the
    visible bounds, its age exceeds the maximum step count, or it comes
    within the sink radius of a sink charge. *)
Definition retired (c : Carrier) : bool :=
  negb (inBounds (pos c)) || Nat.ltb maxSteps (age c) || nearSink (pos c).

(** Modelled from the spec: a retired carrier is reseeded at the seed
    point of its charge, with its age back to zero. *)
Definition reseed (c : Carrier) : Carrier :=
  {| pos := seedPos (seedChargeId c); age := 0;
     seedChargeId := seedChargeId c |}.

(** Modelled from the spec: the per-frame step of one carrier, advance
    then retire and reseed before the next frame. *)
Definition stepCarrier (c : Carrier) : Carrier :=
  let c' := {| pos := advance (pos c); age := S (age c);
               seedChargeId := seedChargeId c |} in
  if retired c' then reseed c' else c'.

(** Modelled from the spec: one frame steps every live carrier. *)
Definition frame (pool : list Carrier) : list Carrier :=
  map stepCarrier pool.

Fixpoint frames (n : nat) (pool : list Carrier) : list Carrier :=
  match n with
  | O => pool
  | S m => frames m (frame pool)
  end.

(** The leak-test predicate on one carrier and on the pool. *)
Definition live_ok (c : Carrier) : Prop :=
  (age c <= maxSteps)%nat /\ inBounds (pos c) = true.

Definition pool_ok (pool : list Carrier) : Prop := Forall live_ok pool.

End Integrator.

End Flow.

(** ** Arithmetic on JavaScript numbers

    The operations of a Number that the page script uses, with the IEEE
    results for infinities, [NaN] and division by zero.  The sign of a zero is
    not kept: a zero divisor counts as [+0]. *)
Module NumOps.

Definition opp (a : Num.t) : Num.t :=
  match a with
  | Num.Fin x => Num.Fin (- x)
  | Num.PInf => Num.NInf
  | Num.NInf => Num.PInf
  | Num.NaN => Num.NaN
  end.

(** [a + b] *)
Definition add (a b : Num.t) : Num.t :=
  match a, b with
  | Num.NaN, _ | _, Num.NaN => Num.NaN
  | Num.PInf, Num.NInf | Num.NInf, Num.PInf => Num.NaN
  | Num.PInf, _ | _, Num.PInf => Num.PInf
  | Num.NInf, _ | _, Num.NInf => Num.NInf
  | Num.Fin x, Num.Fin y => Num.Fin (x + y)
  end.

(** [a - b] *)
Definition sub (a b : Num.t) : Num.t := add a (opp b).

(** The sign of a Number, [None] for [NaN]. *)
Definition sign (a : Num.t) : option comparison :=
  match a with
  | Num.Fin x => Some (x ?= 0)
  | Num.PInf => Some Gt
  | Num.NInf => Some Lt
  | Num.NaN => None
  end.

(** The infinity of a given sign; a zero sign is the [0 * Infinity] case. *)
Definition infinity (s1 s2 : comparison) : Num.t :=
  match s1, s2 with
  | Eq, _ | _, Eq => Num.NaN
  | Gt, Gt | Lt, Lt => Num.PInf
  | _, _ => Num.NInf
  end.

(** [a * b] *)
Definition mul (a b : Num.t) : Num.t :=
  match a, b with
  | Num.Fin x, Num.Fin y => Num.Fin (x * y)
  | _, _ =>
      match sign a, sign b with
      | Some s1, Some s2 => infinity s1 s2
      | _, _ => Num.NaN
      end
  end.

(** [a / b] *)
Definition div (a b : Num.t) : Num.t :=
  match a, b with
  | Num.NaN, _ | _, Num.NaN => Num.NaN
  | Num.Fin x, Num.Fin y =>
      if Qeq_bool y 0
      then match x ?= 0 with
           | Eq => Num.NaN
           | Gt => Num.PInf
           | Lt => Num.NInf
           end
      else Num.Fin (x / y)
  | Num.Fin _, _ => Num.Fin 0
  | _, Num.Fin y =>
      match sign a with
      | Some s => infinity s (if Qle_bool 0 y then Gt else Lt)
      | None => Num.NaN
      end
  | _, _ => Num.NaN
  end.

(** [a >= b] and [a < b], both false as soon as one side is [NaN]. *)
Definition geb (a b : Num.t) : bool := Num.leb b a.

Definition ltb (a b : Num.t) : bool :=
  match a, b with
  | Num.NaN, _ | _, Num.NaN => false
  | _, _ => negb (Num.leb b a)
  end.

(** [Math.floor(a)] *)
Definition floor (a : Num.t) : Num.t :=
  match a with
  | Num.Fin x => Num.Fin (inject_Z (Qfloor x))
  | _ => a
  end.

End NumOps.

(** ** The page script (script.js) *)

Module Page.

Import Ascii String.
Local Open Scope string_scope.

(** *** Strings *)

(** One character of [toLowerCase]: the letters [A]..[Z] move to [a]..[z].
    Only the ASCII letters are folded; other bytes are kept. *)
Definition lowerChar (c : ascii) : ascii :=
  let n := nat_of_ascii c in
  if (65 <=? n)%nat && (n <=? 90)%nat then ascii_of_nat (n + 32) else c.

(** [s.toLowerCase()] *)
Fixpoint toLowerCase (s : string) : string :=
  match s with
  | EmptyString => EmptyString
  | String c rest => String (lowerChar c) (toLowerCase rest)
  end.

(** [s.includes(sub)]: [sub] occurs in [s] at some position. *)
Fixpoint includes (s sub : string) : bool :=
  prefix sub s
  || match s with
     | EmptyString => false
     | String _ rest => includes rest sub
     end.

(** *** Document model *)

(** [style.display]: not set, ['block'] or ['none']. *)
Inductive Display : Type := Unset | Block | Hidden.

(** A [.dish-item]: its text, its classes and its inline display. *)
Record Dish : Type := {
  textContent : string;
  classList : list string;
  dishDisplay : Display
}.

(** A [.country-card]: the text of [.country-header h3], its dishes and its
    inline display. *)
Record Card : Type := {
  countryName : string;
  dishes : list Dish;
  cardDisplay : Display
}.

(** A [.continent-section]: its id, its [offsetTop] and its cards. *)
Record Continent : Type := {
  sectionId : string;
  offsetTop : Q;
  cards : list Card
}.

Definition setDishDisplay (v : Display) (d : Dish) : Dish :=
  {| textContent := textContent d; classList := classList d;
     dishDisplay := v |}.

(** [classList.contains(name)] *)
Definition contains (classes : list string) (name : string) : bool :=
  existsb (String.eqb name) classes.

(** *** Search *)

(** The test of the inner loop: [dishText.includes(searchTerm)] with
    [dishText = dish.textContent.toLowerCase()]. *)
Definition dishMatches (searchTerm : string) (d : Dish) : bool :=
  includes (toLowerCase (textContent d)) searchTerm.

(** The body run for each card.  [hasMatch] is true after the first branch
    and, after the second, exactly when some dish matched. *)
Definition searchCard (searchTerm : string) (card : Card) : Card :=
  if includes (toLowerCase (countryName card)) searchTerm then
    {| countryName := countryName card;
       dishes := map (setDishDisplay Block) (dishes card);
       cardDisplay := Block |}
  else
    let hasMatch := existsb (dishMatches searchTerm) (dishes card) in
    {| countryName := countryName card;
       dishes :=
         map (fun d =>
                if dishMatches searchTerm d then setDishDisplay Block d
                else setDishDisplay Hidden d)
             (dishes card);
       cardDisplay :=
         if hasMatch || String.eqb searchTerm "" then Block else Hidden |}.

(** The search handler once its timeout fires:
    [searchTerm = e.target.value.toLowerCase()], then every card in turn. *)
Definition search (value : string) (cs : list Card) : list Card :=
  map (searchCard (toLowerCase value)) cs.

(** *** Popular / niche filter *)

(** The display a filter button gives one dish:
    [btn.filter === 'all'] shows it, otherwise
    [dish.classList.contains(btn.filter) ? 'block' : 'none']. *)
Definition filterDish (filter : string) (d : Dish) : Dish :=
  if String.eqb filter "all" then setDishDisplay Block d
  else if contains (classList d) filter then setDishDisplay Block d
       else setDishDisplay Hidden d.

(** The click handler on the dishes of one section:
    [section.querySelectorAll('.dish-item')] reaches the dishes of every card
    of the section and leaves the cards themselves alone. *)
Definition filterCard (filter : string) (card : Card) : Card :=
  {| countryName := countryName card;
     dishes := map (filterDish filter) (dishes card);
     cardDisplay := cardDisplay card |}.

Definition filterSection (filter : string) (s : Continent) : Continent :=
  {| sectionId := sectionId s; offsetTop := offsetTop s;
     cards := map (filterCard filter) (cards s) |}.

(** [countDishes]: [.dish-item.popular], [.dish-item.niche] and their sum. *)
Definition countClass (name : string) (ds : list Dish) : nat :=
  List.length (List.filter (fun d => contains (classList d) name) ds).

Definition countDishes (ds : list Dish) : nat * nat * nat :=
  let popular := countClass "popular" ds in
  let niche := countClass "niche" ds in
  (popular, niche, (popular + niche)%nat).

(** *** Filter buttons *)

(** A filter button: its filter and the two inline colours the handlers
    read and write. *)
Record Button : Type := {
  btnFilter : string;
  background : string;
  color : string
}.

Definition primary : string := "var(--primary-color)".
Definition lightBg : string := "var(--light-bg)".
Definition white : string := "white".

(** The button as [buttons.forEach] creates it: the ['all'] button starts
    highlighted. *)
Definition createButton (filter : string) : Button :=
  {| btnFilter := filter;
     background := if String.eqb filter "all" then primary else white;
     color := if String.eqb filter "all" then white else primary |}.

(** [{ text, filter }] of the three buttons, in order. *)
Definition buttons : list Button :=
  [createButton "all"; createButton "popular"; createButton "niche"].

Inductive ButtonEvent : Type :=
| Click (i : nat)
| MouseEnter (i : nat)
| MouseLeave (i : nat).

(** [b.style.background = 'white'; b.style.color = 'var(--primary-color)';] *)
Definition resetButton (b : Button) : Button :=
  {| btnFilter := btnFilter b; background := white; color := primary |}.

(** [button.style.background = 'var(--primary-color)';
     button.style.color = 'white';] *)
Definition activate (b : Button) : Button :=
  {| btnFilter := btnFilter b; background := primary; color := white |}.

(** [if (button.style.background !== 'var(--primary-color)')
       button.style.background = 'var(--light-bg)';] *)
Definition mouseenter (b : Button) : Button :=
  if String.eqb (background b) primary then b
  else {| btnFilter := btnFilter b; background := lightBg; color := color b |}.

(** [if (button.style.color === 'var(--primary-color)')
       button.style.background = 'white';] *)
Definition mouseleave (b : Button) : Button :=
  if String.eqb (color b) primary
  then {| btnFilter := btnFilter b; background := white; color := color b |}
  else b.

(** Apply [f] to the button at index [i]. *)
Fixpoint onButton (f : Button -> Button) (i : nat) (bs : list Button)
  : list Button :=
  match bs, i with
  | [], _ => []
  | b :: rest, O => f b :: rest
  | b :: rest, S j => b :: onButton f j rest
  end.

Definition buttonEvent (bs : list Button) (e : ButtonEvent) : list Button :=
  match e with
  | Click i => onButton activate i (map resetButton bs)
  | MouseEnter i => onButton mouseenter i bs
  | MouseLeave i => onButton mouseleave i bs
  end.

(** A button shows as the active one when it has the primary background. *)
Definition isActive (b : Button) : bool := String.eqb (background b) primary.

(** *** Keyboard navigation *)

(** [sections.find(section => section.offsetTop > currentScroll + 100)] *)
Definition nextSection (currentScroll : Q) (sections : list Continent)
  : option Continent :=
  find (fun s => negb (Qle_bool (offsetTop s) (currentScroll + 100))) sections.

(** [sections.reverse().find(section =>
       section.offsetTop < currentScroll - 100)] *)
Definition prevSection (currentScroll : Q) (sections : list Continent)
  : option Continent :=
  find (fun s => negb (Qle_bool (currentScroll - 100) (offsetTop s)))
       (rev sections).

Inductive Key : Type := ArrowDown | ArrowUp | OtherKey.

(** The [keydown] handler: the section scrolled into view, if any. *)
Definition keydown (key : Key) (currentScroll : Q) (sections : list Continent)
  : option Continent :=
  match key with
  | ArrowDown => nextSection currentScroll sections
  | ArrowUp => prevSection currentScroll sections
  | OtherKey => None
  end.

(** *** Navigation highlighting *)

(** A navigation link: its [href] and its inline background. *)
Record NavLink : Type := { href : string; linkBackground : string }.

(** The first loop of [highlightNav]: [current] starts as [''] and takes the
    id of every section with [pageYOffset >= sectionTop - 200], in order. *)
Definition currentSection (pageYOffset : Q) (sections : list Continent)
  : string :=
  fold_left
    (fun current s =>
       if Qle_bool (offsetTop s - 200) pageYOffset then sectionId s
       else current)
    sections "".

(** The second loop: every background is cleared, and set again on the
    links whose [href] is ['#' + current]. *)
Definition highlightNav (pageYOffset : Q) (sections : list Continent)
  (links : list NavLink) : list NavLink :=
  let current := currentSection pageYOffset sections in
  map (fun link =>
         {| href := href link;
            linkBackground :=
              if String.eqb (href link) ("#" ++ current)
              then "rgba(255, 255, 255, 0.2)" else "" |})
      links.

(** *** Scroll indicator and parallax *)

(** [const winScroll = document.body.scrollTop ||
       document.documentElement.scrollTop;
     const height = scrollHeight - clientHeight;
     const scrolled = (winScroll / height) * 100;] *)
Definition scrolled (bodyScrollTop docScrollTop scrollHeight clientHeight : Num.t)
  : Num.t :=
  let winScroll := Num.or bodyScrollTop docScrollTop in
  let height := NumOps.sub scrollHeight clientHeight in
  NumOps.mul (NumOps.div winScroll height) (Num.Fin 100).



(** *** Animated counter *)

(** What [element.textContent] shows: a number, or [target + '+']. *)
Inductive CounterText : Type :=
| ShowNumber (v : Num.t)
| ShowPlus (v : Num.t).

(** The state [animateCounter] closes over: [current], the element text and
    whether the interval timer is still set. *)
Record Counter : Type := {
  current : Num.t;
  text : CounterText;
  timerSet : bool
}.

(** [stat.textContent = '0'], then [let current = 0] and [setInterval]. *)
Definition animateCounter : Counter :=
  {| current := Num.Fin 0; text := ShowNumber (Num.Fin 0); timerSet := true |}.

(** One firing of the interval callback, with [increment = target / 50];
    a cleared timer fires no more.  The sum is exact here; in the browser it
    is rounded at each addition, so the tick at which a positive target is
    reached may be the 51st instead of the 50th. *)
Definition tick (target : Num.t) (c : Counter) : Counter :=
  if timerSet c then
    let current' := NumOps.add (current c) (NumOps.div target (Num.Fin 50)) in
    if NumOps.geb current' target then
      {| current := current'; text := ShowPlus target; timerSet := false |}
    else
      {| current := current'; text := ShowNumber (NumOps.floor current');
         timerSet := true |}
  else c.

Fixpoint ticks (n : nat) (target : Num.t) (c : Counter) : Counter :=
  match n with
  | O => c
  | S m => ticks m target (tick target c)
  end.

(** *** Observations used in the statements *)

(** A dish is shown when its inline display is ['block']. *)
Definition shown (d : Dish) : bool :=
  match dishDisplay d with
  | Block => true
  | _ => false
  end.

(** The button an event is delivered to. *)
Definition eventIndex (e : ButtonEvent) : nat :=
  match e with
  | Click i | MouseEnter i | MouseLeave i => i
  end.

(** The button clicked last in a run of events, the ['all'] button (index 0)
    when none was clicked. *)
Definition lastClicked (events : list ButtonEvent) : nat :=
  fold_left (fun k e => match e with Click i => i | _ => k end) events 0%nat.

(** The state the handlers keep: button [k] has the primary background and
    white text, every other button has primary text and another
    background. *)
Definition oneActive (k : nat) (bs : list Button) : Prop :=
  forall j b, nth_error bs j = Some b ->
    if Nat.eqb j k
    then background b = primary /\ color b = white
    else color b = primary /\ String.eqb (background b) primary = false.

(** Document order is vertical order: each section starts no higher than
    the ones before it. *)
Definition inDocumentOrder (sections : list Continent) : Prop :=
  StronglySorted (fun a b => offsetTop a <= offsetTop b) sections.

(** A link is highlighted when its inline background is not empty. *)
Definition highlighted (l : NavLink) : bool :=
  negb (String.eqb (linkBackground l) "").

End Page.

(** * Properties *)

(** ** Hit-testing *)

Section HitTesting.

Variables (r : Q) (cs : list Charge.t) (px py : Q).

(** The descending loop over the first [n] charges is a search of those
    charges from the newest to the oldest. *)
Lemma pickCharge_loop_find (n : nat) :
  (n <= length cs)%nat ->
  pickCharge_loop r cs px py n =
  option_map Charge.id (find (withinRadius r px py) (rev (firstn n cs))).
Proof.
  induction n as [|i IH]; intros Hn; [reflexivity|].
  simpl pickCharge_loop.
  destruct (nth_error cs i) as [c|] eqn:Hc.
  - assert (Hsplit : firstn (S i) cs = firstn i cs ++ [c]).
    { clear IH Hn. revert i Hc. induction cs as [|a l IHl]; intros [|i] Hc;
        simpl in *; try discriminate.
      - injection Hc as ->. reflexivity.
      - f_equal. apply IHl. exact Hc. }
    rewrite Hsplit, rev_app_distr. simpl.
    destruct (withinRadius r px py c); [reflexivity|].
    apply IH. lia.
  - apply nth_error_None in Hc. lia.
Qed.

Lemma pickCharge_loop_all :
  pickCharge_loop r cs px py (length cs) =
  option_map Charge.id (find (withinRadius r px py) (rev cs)).
Proof.
  rewrite pickCharge_loop_find by lia.
  rewrite firstn_all. reflexivity.
Qed.

End HitTesting.

Lemma find_skip (A : Type) (P : A -> bool) (l1 l2 : list A) :
  (forall a, In a l1 -> P a = false) ->
  find P (l1 ++ l2) = find P l2.
Proof.
  induction l1 as [|a l IH]; intros Hl; simpl; [reflexivity|].
  rewrite (Hl a) by (left; reflexivity).
  apply IH. intros b Hb. apply Hl. right. exact Hb.
Qed.

(** A charge within the radius with nothing newer within it is the one
    picked, whatever lies beneath. *)
Lemma pickCharge_loop_topmost (r : Q) (older newer : list Charge.t)
  (c : Charge.t) (px py : Q) :
  withinRadius r px py c = true ->
  (forall c', In c' newer -> withinRadius r px py c' = false) ->
  pickCharge_loop r (older ++ c :: newer) px py (length (older ++ c :: newer))
  = Some (Charge.id c).
Proof.
  intros Hc Hnew.
  rewrite pickCharge_loop_all, rev_app_distr. simpl rev.
  rewrite <- !app_assoc, find_skip.
  - simpl. rewrite Hc. reflexivity.
  - intros a Ha. apply Hnew. apply in_rev. exact Ha.
Qed.

(** A charge outside the radius, with nothing newer inside it either, is
    passed over: the result is the one for the older charges alone. *)
Lemma pickCharge_loop_skip (r : Q) (older newer : list Charge.t)
  (px py : Q) :
  (forall c', In c' newer -> withinRadius r px py c' = false) ->
  pickCharge_loop r (older ++ newer) px py (length (older ++ newer))
  = pickCharge_loop r older px py (length older).
Proof.
  intros Hnew.
  rewrite !pickCharge_loop_all, rev_app_distr, find_skip; [reflexivity|].
  intros a Ha. apply Hnew. apply in_rev. exact Ha.
Qed.

(** The test is monotone in the radius. *)
Lemma hypot_le_mono (dx dy r1 r2 : Q) :
  0 <= r1 -> r1 <= r2 ->
  hypot_le dx dy r1 = true -> hypot_le dx dy r2 = true.
Proof.
  unfold hypot_le. intros H0 H12 H.
  apply Qle_bool_iff in H. apply Qle_bool_iff.
  apply Qle_trans with (r1 * r1); [exact H|].
  nra.
Qed.

Lemma outside_touch_outside_mouse (px py : Q) (c : Charge.t) :
  withinRadius touchHitRadius px py c = false ->
  withinRadius mouseHitRadius px py c = false.
Proof.
  intros H. destruct (withinRadius mouseHitRadius px py c) eqn:E; [|reflexivity].
  unfold withinRadius in *.
  rewrite (@hypot_le_mono _ _ mouseHitRadius touchHitRadius) in H;
    [discriminate| | |exact E]; unfold mouseHitRadius, touchHitRadius;
    apply Qle_bool_iff; reflexivity.
Qed.

(** [hypot_le] is the comparison of the Euclidean distance with the radius. *)
Lemma hypot_le_sqrt (dx dy r : Q) :
  0 <= r ->
  hypot_le dx dy r = true <->
  (sqrt (Q2R dx * Q2R dx + Q2R dy * Q2R dy) <= Q2R r)%R.
Proof.
  intros Hr. unfold hypot_le. rewrite Qle_bool_iff.
  assert (Hr' : (0 <= Q2R r)%R).
  { replace 0%R with (Q2R 0) by (unfold Q2R; simpl; lra). apply Qle_Rle, Hr. }
  assert (Hs : (0 <= Q2R dx * Q2R dx + Q2R dy * Q2R dy)%R) by nra.
  split; intros H.
  - apply Qle_Rle in H. rewrite Q2R_plus, !Q2R_mult in H.
    rewrite <- (sqrt_square (Q2R r)) by exact Hr'.
    apply sqrt_le_1; [exact Hs|nra|exact H].
  - apply Rle_Qle. rewrite Q2R_plus, !Q2R_mult.
    rewrite <- (sqrt_square (Q2R r)) in H by exact Hr'.
    apply sqrt_le_0 in H; [exact H|exact Hs|nra].
Qed.

(** Among the elements that pass a test, one is the last of the list. *)
Lemma last_passing (A : Type) (P : A -> bool) (l : list A) :
  (exists a, In a l /\ P a = true) ->
  exists l1 a l2,
    l = l1 ++ a :: l2 /\ P a = true /\ (forall b, In b l2 -> P b = false).
Proof.
  induction l as [|a l IH]; intros [b [Hin Hb]]; [destruct Hin|].
  destruct (existsb P l) eqn:E.
  - apply existsb_exists in E. destruct (IH E) as (l1 & t & l2 & -> & Ht & Hl2).
    exists (a :: l1), t, l2. repeat split; assumption.
  - assert (Hnone : forall c, In c l -> P c = false).
    { intros c Hc. destruct (P c) eqn:Pc; [|reflexivity].
      rewrite <- E. symmetry. apply existsb_exists. exists c. split; assumption. }
    destruct Hin as [->|Hin].
    + exists [], b, l. repeat split; assumption.
    + rewrite (Hnone b Hin) in Hb. discriminate.
Qed.

(** C5: whenever one or more charges lie within the hit radius of the
    pointer-down point, [pickCharge] returns the handle of the most recently
    created of them: the list splits into older charges, the picked charge,
    and newer charges none of which is within the radius. *)
Theorem pickCharge_most_recent (w : Window) (cs : list Charge.t) (px py : Q) :
  (exists c, In c cs /\ withinRadius (hitRadius w) px py c = true) ->
  exists older top newer,
    cs = older ++ top :: newer
    /\ withinRadius (hitRadius w) px py top = true
    /\ (forall c', In c' newer -> withinRadius (hitRadius w) px py c' = false)
    /\ pickCharge w cs px py = Some (Charge.id top).
Proof.
  intros Hex.
  destruct (last_passing (withinRadius (hitRadius w) px py) cs Hex)
    as (older & top & newer & -> & Htop & Hnew).
  exists older, top, newer. repeat split; try assumption.
  unfold pickCharge. apply pickCharge_loop_topmost; assumption.
Qed.

(** Two overlapping charges under the pointer: the one placed last wins. *)
Lemma pickCharge_most_recent_witness :
  exists older top newer,
    [Charge.mk 1 0 0 (Num.Fin 1); Charge.mk 2 3 4 (Num.Fin (-1))]
    = older ++ top :: newer
    /\ withinRadius (hitRadius desktopDevice) 1 1 top = true
    /\ (forall c', In c' newer ->
                   withinRadius (hitRadius desktopDevice) 1 1 c' = false)
    /\ pickCharge desktopDevice
         [Charge.mk 1 0 0 (Num.Fin 1); Charge.mk 2 3 4 (Num.Fin (-1))] 1 1
       = Some (Charge.id top).
Proof.
  apply (@pickCharge_most_recent desktopDevice
           [Charge.mk 1 0 0 (Num.Fin 1); Charge.mk 2 3 4 (Num.Fin (-1))] 1 1).
  exists (Charge.mk 1 0 0 (Num.Fin 1)). split; [left; reflexivity|reflexivity].
Defined.

Example pickCharge_overlap :
  pickCharge desktopDevice
    [Charge.mk 1 0 0 (Num.Fin 1); Charge.mk 2 3 4 (Num.Fin (-1))] 1 1 = Some 2%nat.
Proof. reflexivity. Qed.

(** C10: the hit radius is chosen per call from the host window alone, 20 when
    ['ontouchstart' in window] and 14 otherwise, and a pointer-down is tested
    with that radius whether it comes from the mouse or from a touch: both
    events at one point give the search of the charges, newest first, with
    the radius of the device. *)
Theorem hit_radius_from_device (w : Window) (cs : list Charge.t) (px py : Q) :
  hitRadius w = (if ontouchstart_in_window w then 20 else 14)
  /\ handlePointerDown_pick w cs (mouseDownAt px py)
     = option_map Charge.id
         (find (withinRadius (if ontouchstart_in_window w then 20 else 14) px py)
               (rev cs))
  /\ handlePointerDown_pick w cs (touchDownAt px py)
     = option_map Charge.id
         (find (withinRadius (if ontouchstart_in_window w then 20 else 14) px py)
               (rev cs)).
Proof.
  assert (Hr : hitRadius w = (if ontouchstart_in_window w then 20 else 14)).
  { unfold hitRadius, touchHitRadius, mouseHitRadius. reflexivity. }
  split; [exact Hr|].
  unfold handlePointerDown_pick, mouseDownAt, touchDownAt, pickCharge. simpl.
  rewrite <- Hr, pickCharge_loop_all. split; reflexivity.
Qed.

(** On a touch-capable device a mouse click 17 pixels off a charge picks it;
    on a desktop a touch event at the same point does not. *)
Example device_decides_radius :
  handlePointerDown_pick touchDevice [Charge.mk 1 0 0 (Num.Fin 1)]
    (mouseDownAt 17 0) = Some 1%nat
  /\ handlePointerDown_pick desktopDevice [Charge.mk 1 0 0 (Num.Fin 1)]
       (touchDownAt 17 0) = None.
Proof. split; reflexivity. Qed.

(** C4, as stated, fails: with a charge at the origin and a point 17 pixels
    away (between the two radii), a mouse-origin pointer-down on a
    touch-capable device registers a hit. *)
Lemma mouse_down_hits_on_touch_device :
  withinRadius mouseHitRadius 17 0 (Charge.mk 1 0 0 (Num.Fin 1)) = false
  /\ withinRadius touchHitRadius 17 0 (Charge.mk 1 0 0 (Num.Fin 1)) = true
  /\ handlePointerDown_pick touchDevice [Charge.mk 1 0 0 (Num.Fin 1)]
       (mouseDownAt 17 0) <> None.
Proof. repeat split; try reflexivity. discriminate. Qed.

(** C4, amended: for a charge [c] at a distance from the point that is beyond
    the mouse radius and within the touch radius, with no newer charge within
    the touch radius, a pointer-down on a touch-capable device picks [c] and a
    pointer-down on a device without touch support passes [c] over (the
    result is the one for the older charges alone), whatever the input source
    of the event; and the touch radius is at least 1.4 times the mouse
    radius. *)
Theorem hit_radius_larger_on_touch_device
  (older newer : list Charge.t) (c : Charge.t) (e : PointerEvent) (px py : Q) :
  getCanvasCoords e = Some (px, py) ->
  withinRadius mouseHitRadius px py c = false ->
  withinRadius touchHitRadius px py c = true ->
  (forall c', In c' newer -> withinRadius touchHitRadius px py c' = false) ->
  handlePointerDown_pick touchDevice (older ++ c :: newer) e
  = Some (Charge.id c)
  /\ handlePointerDown_pick desktopDevice (older ++ c :: newer) e
     = handlePointerDown_pick desktopDevice older e
  /\ (14 # 10) * mouseHitRadius <= touchHitRadius.
Proof.
  intros He Hm Ht Hnew. unfold handlePointerDown_pick. rewrite He.
  unfold pickCharge. repeat split.
  - apply pickCharge_loop_topmost; assumption.
  - apply pickCharge_loop_skip. intros c' [<-|Hin]; [exact Hm|].
    apply outside_touch_outside_mouse, Hnew, Hin.
  - unfold mouseHitRadius, touchHitRadius. apply Qle_bool_iff. reflexivity.
Qed.

Lemma hit_radius_larger_on_touch_device_witness :
  handlePointerDown_pick touchDevice
    ([Charge.mk 1 5 5 (Num.Fin 2)] ++ Charge.mk 2 0 0 (Num.Fin 1) :: [])
    (touchDownAt 17 0)
  = Some (Charge.id (Charge.mk 2 0 0 (Num.Fin 1)))
  /\ handlePointerDown_pick desktopDevice
       ([Charge.mk 1 5 5 (Num.Fin 2)] ++ Charge.mk 2 0 0 (Num.Fin 1) :: [])
       (touchDownAt 17 0)
     = handlePointerDown_pick desktopDevice [Charge.mk 1 5 5 (Num.Fin 2)]
         (touchDownAt 17 0)
  /\ (14 # 10) * mouseHitRadius <= touchHitRadius.
Proof.
  apply (@hit_radius_larger_on_touch_device
           [Charge.mk 1 5 5 (Num.Fin 2)] [] (Charge.mk 2 0 0 (Num.Fin 1))
           (touchDownAt 17 0) 17 0).
  - reflexivity.
  - reflexivity.
  - reflexivity.
  - intros c' [].
Defined.

(** ** Heatmap clip value and the render loop *)

Lemma or_positive (v : Q) (d : Num.t) :
  0 < v -> Num.or (Num.Fin v) d = Num.Fin v.
Proof.
  intros Hv. unfold Num.or, Num.truthy.
  destruct (Qeq_bool v 0) eqn:E; [|reflexivity].
  apply Qeq_bool_eq in E. rewrite E in Hv. apply Qlt_irrefl in Hv. contradiction.
Qed.

(** C1: with auto-scale off and a positive range [R] in the range field, the
    clip value of a heatmap pass is [R] itself, whatever maximum magnitude
    [lastAmp] the pass observes; this holds for the pass on its own and for
    the pass run by the render loop when the heatmap is stale. *)
Theorem manual_clip_is_user_range (lastAmp : Num.t) (st : App) (R : Q) :
  autoScale (scene st) = false ->
  rangeV (scene st) = Num.Fin R ->
  0 < R ->
  Vclip (computeHeatmap lastAmp st) = Num.Fin R
  /\ (heatDirty st = true -> Vclip (render lastAmp st) = Num.Fin R).
Proof.
  intros Hauto Hrange HR.
  assert (H : Vclip (computeHeatmap lastAmp st) = Num.Fin R).
  { unfold computeHeatmap, clipValue, userRange. simpl.
    rewrite Hauto, Hrange. apply or_positive, HR. }
  split; [exact H|].
  intros Hd. unfold render. rewrite Hd. exact H.
Qed.

(** A scene whose field peaks at 90: a manual range of 10 (below the peak)
    and one of 500 (above it) are both used as given. *)
Lemma manual_clip_is_user_range_witness :
  Vclip (computeHeatmap (Num.Fin 90)
           {| scene := {| charges := [Charge.mk 1 0 0 (Num.Fin 5)];
                          selectedId := None; autoScale := false;
                          rangeV := Num.Fin 10 |};
              heatDirty := true; Vclip := Num.Fin 40 |}) = Num.Fin 10
  /\ Vclip (computeHeatmap (Num.Fin 90)
              {| scene := {| charges := [Charge.mk 1 0 0 (Num.Fin 5)];
                             selectedId := None; autoScale := false;
                             rangeV := Num.Fin 500 |};
                 heatDirty := true; Vclip := Num.Fin 40 |}) = Num.Fin 500.
Proof.
  split.
  - refine (proj1 (@manual_clip_is_user_range (Num.Fin 90)
             {| scene := {| charges := [Charge.mk 1 0 0 (Num.Fin 5)];
                            selectedId := None; autoScale := false;
                            rangeV := Num.Fin 10 |};
                heatDirty := true; Vclip := Num.Fin 40 |} 10 _ _ _));
      reflexivity.
  - refine (proj1 (@manual_clip_is_user_range (Num.Fin 90)
             {| scene := {| charges := [Charge.mk 1 0 0 (Num.Fin 5)];
                            selectedId := None; autoScale := false;
                            rangeV := Num.Fin 500 |};
                heatDirty := true; Vclip := Num.Fin 40 |} 500 _ _ _));
      reflexivity.
Defined.

(** The selection before the fix did cap a manual range at the observed
    maximum; the selection after it does not. *)
Example range_cap_before_fix :
  clipValue_before false (Num.Fin 90) (Num.Fin 500) = Num.Fin 90
  /\ clipValue false (Num.Fin 90) (Num.Fin 500) = Num.Fin 500.
Proof. split; reflexivity. Qed.

(** The render loop leaves the charges, the selection and the auto-scale
    flag alone, and does nothing at all while the heatmap is clean. *)
Lemma render_keeps_charges (lastAmp : Num.t) (st : App) :
  charges (scene (render lastAmp st)) = charges (scene st)
  /\ selectedId (scene (render lastAmp st)) = selectedId (scene st)
  /\ autoScale (scene (render lastAmp st)) = autoScale (scene st).
Proof. unfold render. destruct (heatDirty st); repeat split. Qed.

Lemma render_clean (lastAmp : Num.t) (st : App) :
  heatDirty st = false -> render lastAmp st = st.
Proof. intros H. unfold render. rewrite H. reflexivity. Qed.

(** With auto-scale on, a pass over a stale heatmap leaves the observed
    maximum in the range field, whatever the field showed. *)
Lemma render_stores_clip (lastAmp : Num.t) (st : App) :
  heatDirty st = true ->
  autoScale (scene st) = true ->
  rangeV (scene (render lastAmp st)) = lastAmp.
Proof.
  intros Hd Ha. unfold render. rewrite Hd. simpl.
  unfold clipValue. rewrite Ha. reflexivity.
Qed.

(** C2: the render loop is not read-only on the display-setting inputs.  With
    auto-scale on, the range field showing 40 and a stale heatmap whose pass
    observes a maximum of 90, one pass of the loop leaves 90 in the range
    field. *)
Theorem render_overwrites_range_input :
  rangeV (scene (render (Num.Fin 90)
                   {| scene := {| charges := [Charge.mk 1 0 0 (Num.Fin 5)];
                                  selectedId := None; autoScale := true;
                                  rangeV := Num.Fin 40 |};
                      heatDirty := true; Vclip := Num.Fin 40 |}))
  = Num.Fin 90.
Proof. reflexivity. Qed.

(** ** Settings boundary *)

(** The magnitude handler stores whatever Number it is given in the
    selected charge. *)
Lemma selectedChargeMagEl_input_stores (v : Num.t) (st : App) (c : Charge.t) :
  In c (charges (scene st)) ->
  selectedId (scene st) = Some (Charge.id c) ->
  In (Charge.mk (Charge.id c) (Charge.x c) (Charge.y c) v)
     (charges (scene (selectedChargeMagEl_input v st))).
Proof.
  intros Hin Hsel. simpl. apply in_map_iff. exists c. split; [|exact Hin].
  unfold setMagnitude. rewrite Hsel, Nat.eqb_refl. reflexivity.
Qed.

(** C6: the magnitude handler applies a value outside the sane bounds.  With
    charge 1 selected at 5 µC, the input 1e100 is not a sane magnitude and
    yet becomes the magnitude of the charge; likewise an infinite display
    range, which is not a sane range, is what the next heatmap pass reads as
    the user range. *)
Theorem settings_accept_insane_values :
  let st := {| scene := {| charges := [Charge.mk 1 0 0 (Num.Fin 5)];
                           selectedId := Some 1%nat; autoScale := false;
                           rangeV := Num.Fin 40 |};
               heatDirty := false; Vclip := Num.Fin 40 |} in
  saneMagnitude (Num.Fin (inject_Z (10 ^ 100))) = false
  /\ magnitudeOf 1 (scene st) = Some (Num.Fin 5)
  /\ magnitudeOf 1
       (scene (selectedChargeMagEl_input (Num.Fin (inject_Z (10 ^ 100))) st))
     = Some (Num.Fin (inject_Z (10 ^ 100)))
  /\ saneRange Num.PInf = false
  /\ userRange (scene (displayRangeEl2_input Num.PInf st)) = Num.PInf.
Proof. vm_compute. repeat split. Qed.

(** ** Persistence *)

Lemma loadCharges_save (cs : list Charge.t) :
  Forall (fun c => Num.isFinite (Charge.q c) = true) cs ->
  forall i, exists cs',
    loadCharges i (map saveCharge cs) = Some cs'
    /\ map (fun c => (Charge.x c, Charge.y c, Charge.q c)) cs'
       = map (fun c => (Charge.x c, Charge.y c, Charge.q c)) cs.
Proof.
  induction 1 as [|c l Hc Hl IH]; intros i.
  - exists []. split; reflexivity.
  - destruct (IH (S i)) as (l' & Hload & Hobs).
    destruct c as [ci cx cy cq]. simpl in Hc.
    destruct cq as [vq| | |]; try discriminate.
    exists (Charge.mk i cx cy (Num.Fin vq) :: l'). split.
    + simpl. unfold loadCharge. simpl. rewrite Hload. reflexivity.
    + simpl. rewrite Hobs. reflexivity.
Qed.

Lemma loadCharges_malformed (l : list SavedCharge) :
  forallb finiteCharge l = false -> forall i, loadCharges i l = None.
Proof.
  induction l as [|c l IH]; intros Hl i; [discriminate|].
  simpl in Hl. apply andb_false_iff in Hl. simpl.
  destruct Hl as [Hc|Hl].
  - unfold loadCharge. unfold finiteCharge in Hc.
    destruct (s_x c), (s_y c), (s_q c); try reflexivity; discriminate.
  - rewrite (IH Hl (S i)). destruct (loadCharge i c); reflexivity.
Qed.

Lemma loadCharges_length (l : list SavedCharge) :
  forall i cs, loadCharges i l = Some cs -> length cs = length l.
Proof.
  induction l as [|c l IH]; intros i cs H; simpl in H.
  - injection H as <-. reflexivity.
  - destruct (loadCharge i c); [|discriminate].
    destruct (loadCharges (S i) l) as [l'|] eqn:E; [|discriminate].
    injection H as <-. simpl. f_equal. apply (IH (S i)). exact E.
Qed.

(** A stored charge with a non-finite coordinate or magnitude makes the
    stored scene malformed. *)
Lemma nonfinite_charge_malformed (m : SavedScene) (c : SavedCharge) :
  In c (s_charges m) -> finiteCharge c = false -> malformed m = true.
Proof.
  intros Hin Hc. unfold malformed.
  assert (H : forallb finiteCharge (s_charges m) = false).
  { destruct (forallb finiteCharge (s_charges m)) eqn:E; [|reflexivity].
    rewrite forallb_forall in E. rewrite (E c Hin) in Hc. discriminate. }
  rewrite H. reflexivity.
Qed.

(** A load never yields part of the stored charges: the loaded scene has
    either all of them or is the default scene. *)
Lemma load_all_or_default (m : SavedScene) :
  loadScene m = defaultScene
  \/ length (charges (loadScene m)) = length (s_charges m).
Proof.
  unfold loadScene.
  destruct (loadCharges 0 (s_charges m)) as [cs|] eqn:E; [|left; reflexivity].
  destruct (s_rangeV m); try (left; reflexivity).
  right. simpl. apply (loadCharges_length _ _ E).
Qed.

(** C8: for a well-formed Scene (finite magnitudes, positive finite range),
    loading what was saved gives the same observable scene: the same charges
    (count, positions, magnitudes, in order) and the same display
    settings. *)
Theorem load_save_roundtrip (s : Scene) :
  wellFormed s -> observable (loadScene (saveScene s)) = observable s.
Proof.
  intros [Hq Hr].
  destruct (loadCharges_save Hq 0) as (cs' & Hload & Hobs).
  unfold loadScene, saveScene. simpl. rewrite Hload.
  destruct (rangeV s) as [r| | |] eqn:E; try discriminate.
  unfold observable. simpl. rewrite Hobs, E. reflexivity.
Qed.

Lemma load_save_roundtrip_witness :
  observable
    (loadScene
       (saveScene
          {| charges := [Charge.mk 7 (3 # 2) 4 (Num.Fin 5);
                         Charge.mk 9 10 (-2) (Num.Fin (-3))];
             selectedId := Some 9%nat; autoScale := false;
             rangeV := Num.Fin 65 |}))
  = observable
      {| charges := [Charge.mk 7 (3 # 2) 4 (Num.Fin 5);
                     Charge.mk 9 10 (-2) (Num.Fin (-3))];
         selectedId := Some 9%nat; autoScale := false;
         rangeV := Num.Fin 65 |}.
Proof.
  apply load_save_roundtrip. split.
  - repeat constructor.
  - reflexivity.
Defined.

(** C9: loading a malformed stored scene (one with a non-finite number, for
    instance in a coordinate of one charge) gives exactly the default empty
    scene; none of the stored charges is applied. *)
Theorem load_malformed_is_default (m : SavedScene) :
  malformed m = true -> loadScene m = defaultScene.
Proof.
  unfold malformed. intros H.
  apply negb_true_iff, andb_false_iff in H. unfold loadScene.
  destruct H as [Hc|Hr].
  - rewrite (loadCharges_malformed _ Hc 0). reflexivity.
  - destruct (loadCharges 0 (s_charges m)); [|reflexivity].
    destruct (s_rangeV m); try reflexivity. discriminate.
Qed.

(** A valid first charge followed by one whose [x] is NaN: nothing is kept. *)
Lemma load_malformed_is_default_witness :
  loadScene
    {| s_charges := [ {| s_x := Num.Fin 1; s_y := Num.Fin 2; s_q := Num.Fin 3 |};
                      {| s_x := Num.NaN; s_y := Num.Fin 0; s_q := Num.Fin 1 |} ];
       s_autoScale := false; s_rangeV := Num.Fin 10 |}
  = defaultScene.
Proof.
  apply load_malformed_is_default. reflexivity.
Defined.

(** ** Field solver *)

Module FieldSolverFacts.

Import FieldSolver.
Local Open Scope R_scope.

Lemma soften_pos : 0 < soften.
Proof. unfold soften. lra. Qed.





Lemma radius_at_center (c : Source) : radius (sx c) (sy c) c = soften.
Proof.
  unfold radius, hypot.
  replace (sx c - sx c) with 0 by ring.
  replace (sy c - sy c) with 0 by ring.
  replace (0 * 0 + 0 * 0) with 0 by ring.
  rewrite sqrt_0. apply Rmax_right. left. apply soften_pos.
Qed.

Section Totals.

Variables (k x y : R).





End Totals.


(** A single unit charge probed at its own centre: the potential is
    [k / soften], not a division by zero. *)
Example potential_at_center (k : R) :
  V (fieldAt k [ {| sx := 3; sy := 4; sq := 1 |} ] 3 4) = k * 100.
Proof.
  pose proof (radius_at_center {| sx := 3; sy := 4; sq := 1 |}) as Hr.
  simpl in Hr. unfold fieldAt, accumulate. simpl. rewrite Hr.
  unfold soften. field.
Qed.

End FieldSolverFacts.

(** ** Flow integrator *)

Module FlowFacts.

Import FieldSolver Flow.
Local Open Scope R_scope.

Section Invariant.

Variables (k : R) (sources : list Source) (W H : R).
Variables (sinkRadius sinkCharge : R) (seedPos : nat -> R * R).

(** Seed points lie inside the visible bounds. *)
Hypothesis seed_inside : forall i, inBounds W H (seedPos i) = true.

Let step := stepCarrier k sources W H sinkRadius sinkCharge seedPos.
Let run := frames k sources W H sinkRadius sinkCharge seedPos.

(** A carrier that is not retired is within its age limit and inside
    the bounds. *)
Lemma kept_is_ok (c : Carrier) :
  retired sources W H sinkRadius sinkCharge c = false -> live_ok W H c.
Proof.
  unfold retired, live_ok. intros Hk.
  apply orb_false_iff in Hk. destruct Hk as [Hk _].
  apply orb_false_iff in Hk. destruct Hk as [Hb Ha].
  apply negb_false_iff in Hb. apply Nat.ltb_ge in Ha.
  split; assumption.
Qed.

Lemma reseed_is_ok (c : Carrier) : live_ok W H (reseed seedPos c).
Proof.
  unfold live_ok, reseed. simpl. split; [lia|apply seed_inside].
Qed.

(** Whatever the carrier was, it is fine after its step. *)
Lemma stepCarrier_ok (c : Carrier) : live_ok W H (step c).
Proof.
  unfold step, stepCarrier.
  destruct (retired sources W H sinkRadius sinkCharge _) eqn:E.
  - apply reseed_is_ok.
  - apply kept_is_ok. exact E.
Qed.

Lemma frame_ok (pool : list Carrier) :
  pool_ok W H (frame k sources W H sinkRadius sinkCharge seedPos pool).
Proof.
  unfold pool_ok, frame. apply Forall_forall. intros c Hc.
  apply in_map_iff in Hc. destruct Hc as (c0 & <- & _).
  apply stepCarrier_ok.
Qed.

Lemma frames_preserve (n : nat) :
  forall pool, pool_ok W H pool -> pool_ok W H (run n pool).
Proof.
  induction n as [|m IH]; intros pool Hp; simpl; [exact Hp|].
  apply IH, frame_ok.
Qed.

Lemma frames_length (n : nat) :
  forall pool, length (run n pool) = length pool.
Proof.
  induction n as [|m IH]; intros pool; simpl; [reflexivity|].
  unfold run in IH. rewrite IH. unfold frame. apply length_map.
Qed.

End Invariant.

(** The two tests of the step, in plain inequalities. *)
Lemma inBounds_iff (W H : R) (p : R * R) :
  inBounds W H p = true
  <-> (0 <= fst p <= W /\ 0 <= snd p <= H).
Proof.
  unfold inBounds.
  destruct (Rle_dec 0 (fst p)), (Rle_dec (fst p) W),
    (Rle_dec 0 (snd p)), (Rle_dec (snd p) H); simpl; split; intros Hx;
    try discriminate; try reflexivity;
    try (repeat split; assumption);
    destruct Hx as [[? ?] [? ?]]; contradiction.
Qed.

Lemma nearSink_iff (sources : list Source) (sinkRadius sinkCharge : R)
  (p : R * R) :
  nearSink sources sinkRadius sinkCharge p = true
  <-> exists s, In s sources /\ sq s <= sinkCharge
                /\ hypot (fst p - sx s) (snd p - sy s) < sinkRadius.
Proof.
  unfold nearSink. rewrite existsb_exists.
  split; intros (s & Hin & Hs); exists s; (split; [exact Hin|]).
  - destruct (Rle_dec (sq s) sinkCharge);
      destruct (Rlt_dec (hypot (fst p - sx s) (snd p - sy s)) sinkRadius);
      simpl in Hs; try discriminate. split; assumption.
  - destruct Hs as [Hq Hd].
    destruct (Rle_dec (sq s) sinkCharge); [|contradiction].
    destruct (Rlt_dec (hypot (fst p - sx s) (snd p - sy s)) sinkRadius);
      [reflexivity|contradiction].
Qed.

(** A carrier is retired exactly when, after its move, it is outside the
    bounds, too old, or at a sink. *)
Lemma retired_iff (sources : list Source) (W H sinkRadius sinkCharge : R)
  (c : Carrier) :
  retired sources W H sinkRadius sinkCharge c = true
  <-> (~ (0 <= fst (pos c) <= W /\ 0 <= snd (pos c) <= H)
       \/ (maxSteps < age c)%nat
       \/ exists s, In s sources /\ sq s <= sinkCharge
                    /\ hypot (fst (pos c) - sx s) (snd (pos c) - sy s)
                       < sinkRadius).
Proof.
  unfold retired. rewrite !orb_true_iff, negb_true_iff, Nat.ltb_lt, nearSink_iff.
  split.
  - intros [[Hb|Ha]|Hs].
    + left. intros Hin. apply inBounds_iff in Hin. congruence.
    + right. left. exact Ha.
    + right. right. exact Hs.
  - intros [Hb|[Ha|Hs]].
    + left. left. destruct (inBounds W H (pos c)) eqn:E; [|reflexivity].
      apply inBounds_iff in E. contradiction.
    + left. right. exact Ha.
    + right. exact Hs.
Qed.

(** C7, as stated, fails: nothing keeps a seed point inside the bounds.  On a
    480 by 332 canvas with a positive charge at (2, 100), close to the left
    edge, take the seed point (-4, 100), six pixels from the charge.  A
    carrier at (10, 10) that has reached the age limit satisfies the
    predicate; the next frame retires it and reseeds it at the seed point,
    which is outside the bounds. *)
Lemma reseed_outside_bounds_leaks :
  (1200 <= maxSteps)%nat
  /\ (0 <= 10 <= 480 /\ 0 <= 10 <= 332)
  /\ frame 1 [ {| sx := 2; sy := 100; sq := 1 |} ] 480 332 8 (-1)
       (fun _ => (-4, 100))
       [ {| pos := (10, 10); age := 1200; seedChargeId := 0 |} ]
     = [ {| pos := (-4, 100); age := 0; seedChargeId := 0 |} ]
  /\ ~ (0 <= -4 <= 480 /\ 0 <= 100 <= 332).
Proof.
  split; [apply Nat.le_refl|]. split; [lra|]. split; [|lra].
  unfold frame. simpl map. unfold stepCarrier.
  match goal with
  | |- context [retired ?a ?b ?c ?d ?e ?f] =>
      assert (Hret : retired a b c d e f = true)
  end.
  { apply retired_iff. right. left. simpl. unfold maxSteps. lia. }
  rewrite Hret. reflexivity.
Qed.

(** C7, amended: provided every seed point lies inside the visible bounds,
    the leak-test predicate (age at most [maxSteps] = 1200, position inside
    the bounds) holds for every carrier after each frame and so after any
    number of frames, 10,000 included, with no carrier lost.  The step
    retires and reseeds (seed point of its charge, age zero) every carrier
    that after its move is outside the bounds, older than [maxSteps], or
    within [sinkRadius] of a charge of magnitude at most [sinkCharge]; any
    other carrier is kept as moved, one step older. *)
Theorem carriers_never_leak
  (k : R) (sources : list Source) (W H sinkRadius sinkCharge : R)
  (seedPos : nat -> R * R) (pool : list Carrier) (n : nat) :
  (forall i, 0 <= fst (seedPos i) <= W /\ 0 <= snd (seedPos i) <= H) ->
  let inside := fun p : R * R => 0 <= fst p <= W /\ 0 <= snd p <= H in
  let ok := fun c : Carrier => (age c <= maxSteps)%nat /\ inside (pos c) in
  let atSink := fun p : R * R =>
    exists s, In s sources /\ sq s <= sinkCharge
              /\ hypot (fst p - sx s) (snd p - sy s) < sinkRadius in
  let moved := fun c : Carrier =>
    {| pos := advance k sources (pos c); age := S (age c);
       seedChargeId := seedChargeId c |} in
  let step := stepCarrier k sources W H sinkRadius sinkCharge seedPos in
  let run := frames k sources W H sinkRadius sinkCharge seedPos in
  maxSteps = 1200%nat
  /\ (forall c,
        ~ inside (pos (moved c)) \/ (maxSteps < age (moved c))%nat
        \/ atSink (pos (moved c)) ->
        step c = {| pos := seedPos (seedChargeId c); age := 0;
                    seedChargeId := seedChargeId c |})
  /\ (forall c,
        inside (pos (moved c)) -> (age (moved c) <= maxSteps)%nat ->
        ~ atSink (pos (moved c)) ->
        step c = moved c)
  /\ Forall ok (run 1%nat pool)
  /\ (Forall ok pool -> Forall ok (run n pool))
  /\ Forall ok (run (S n) pool)
  /\ length (run n pool) = length pool.
Proof.
  intros Hseed inside ok atSink moved step run.
  assert (Hseed' : forall i, inBounds W H (seedPos i) = true).
  { intros i. apply inBounds_iff, Hseed. }
  assert (Hok : forall l, pool_ok W H l <-> Forall ok l).
  { intros l. unfold pool_ok. rewrite !Forall_forall.
    split; intros Hl c Hc; specialize (Hl c Hc); unfold live_ok, ok, inside in *;
      destruct Hl as [Ha Hb]; (split; [exact Ha|]); apply inBounds_iff; exact Hb. }
  split; [reflexivity|].
  split; [|split].
  - intros c Hc. unfold step, stepCarrier.
    apply retired_iff in Hc. fold (moved c). rewrite Hc. reflexivity.
  - intros c Hin Hage Hsink. unfold step, stepCarrier. fold (moved c).
    destruct (retired sources W H sinkRadius sinkCharge (moved c)) eqn:E;
      [|reflexivity].
    apply retired_iff in E. destruct E as [E|[E|E]].
    + contradiction.
    + lia.
    + contradiction.
  - split; [|split; [|split]].
    + apply Hok. simpl.
      apply (@frame_ok k sources W H sinkRadius sinkCharge seedPos Hseed' pool).
    + intros Hp. apply Hok. apply frames_preserve; [exact Hseed'|].
      apply Hok. exact Hp.
    + apply Hok. simpl. apply frames_preserve; [exact Hseed'|].
      apply (@frame_ok k sources W H sinkRadius sinkCharge seedPos Hseed' pool).
    + apply frames_length.
Qed.

(** A carrier far outside a 480 by 332 canvas and long past its age limit
    is back inside and young after three frames. *)
Lemma carriers_never_leak_witness :
  Forall (fun c : Carrier =>
            (age c <= maxSteps)%nat
            /\ (0 <= fst (pos c) <= 480 /\ 0 <= snd (pos c) <= 332))
    (frames 1 [ {| sx := 100; sy := 100; sq := 1 |} ] 480 332 8 (-1)
       (fun _ => (10, 10)) 3
       [ {| pos := (600, 0); age := 2000; seedChargeId := 0 |} ]).
Proof.
  refine (proj1 (proj2 (proj2 (proj2 (proj2 (proj2
    (@carriers_never_leak 1 [ {| sx := 100; sy := 100; sq := 1 |} ]
       480 332 8 (-1) (fun _ => (10, 10))
       [ {| pos := (600, 0); age := 2000; seedChargeId := 0 |} ] 2 _))))))).
  intros _. simpl. lra.
Defined.

(** The leak test itself: a pool that is fine stays fine over 10,000
    frames. *)
Corollary ten_thousand_frames
  (k : R) (sources : list Source) (W H sinkRadius sinkCharge : R)
  (seedPos : nat -> R * R) (pool : list Carrier) :
  (forall i, inBounds W H (seedPos i) = true) ->
  pool_ok W H pool ->
  pool_ok W H
    (frames k sources W H sinkRadius sinkCharge seedPos 10000 pool).
Proof.
  intros Hseed Hp. apply frames_preserve; assumption.
Qed.

End FlowFacts.

(** * Further properties of the widget code *)

Lemma find_none_all (A : Type) (P : A -> bool) (l : list A) :
  find P l = None <-> (forall a, In a l -> P a = false).
Proof.
  split; [apply find_none|].
  induction l as [|a l IH]; intros H; simpl; [reflexivity|].
  rewrite (H a) by (left; reflexivity).
  apply IH. intros b Hb. apply H. right. exact Hb.
Qed.

(** X1: [pickCharge] returns [null] exactly when no charge is within the hit
    radius of the point, and a handle it returns is the handle of a charge of
    the list that is within the radius. *)
Theorem pickCharge_hit_iff (w : Window) (cs : list Charge.t) (px py : Q) :
  (pickCharge w cs px py = None <->
   forall c, In c cs -> withinRadius (hitRadius w) px py c = false)
  /\ (forall i, pickCharge w cs px py = Some i ->
      exists c, In c cs /\ Charge.id c = i
                /\ withinRadius (hitRadius w) px py c = true).
Proof.
  unfold pickCharge. rewrite pickCharge_loop_all. split.
  - destruct (find (withinRadius (hitRadius w) px py) (rev cs)) as [c|] eqn:E.
    + split; [discriminate|]. intros H.
      apply find_some in E. destruct E as [Hin Hc].
      apply in_rev in Hin. rewrite (H c Hin) in Hc. discriminate.
    + split; [|reflexivity]. intros _ c Hin.
      apply (proj1 (find_none_all _ _) E). apply in_rev in Hin. exact Hin.
  - intros i H.
    destruct (find (withinRadius (hitRadius w) px py) (rev cs)) as [c|] eqn:E;
      [|discriminate].
    injection H as <-. apply find_some in E. destruct E as [Hin Hc].
    exists c. repeat split; [apply in_rev; exact Hin|exact Hc].
Qed.

(** X2: whatever point hits some charge on a desktop also hits some charge on a
    touch-capable device: the larger radius never loses a hit. *)
Theorem desktop_hit_is_touch_hit (cs : list Charge.t) (px py : Q) (i : nat) :
  pickCharge desktopDevice cs px py = Some i ->
  exists j, pickCharge touchDevice cs px py = Some j.
Proof.
  intros Hd.
  destruct (pickCharge touchDevice cs px py) as [j|] eqn:Ht; [exists j; reflexivity|].
  exfalso. unfold pickCharge in *. rewrite pickCharge_loop_all in *.
  destruct (find (withinRadius (hitRadius desktopDevice) px py) (rev cs))
    as [c|] eqn:E; [|discriminate].
  apply find_some in E. destruct E as [Hin Hc].
  destruct (find (withinRadius (hitRadius touchDevice) px py) (rev cs))
    as [c'|] eqn:E'; [discriminate|].
  pose proof (proj1 (find_none_all _ _) E' c Hin) as Hout.
  apply outside_touch_outside_mouse in Hout.
  unfold hitRadius in Hc. simpl in Hc. rewrite Hout in Hc. discriminate.
Qed.

Lemma desktop_hit_is_touch_hit_witness :
  exists j,
    pickCharge touchDevice
      [Charge.mk 1 0 0 (Num.Fin 1); Charge.mk 2 30 0 (Num.Fin 1)] 12 0 = Some j.
Proof.
  apply (@desktop_hit_is_touch_hit
           [Charge.mk 1 0 0 (Num.Fin 1); Charge.mk 2 30 0 (Num.Fin 1)]
           12 0 1%nat).
  reflexivity.
Defined.

(** X3: the range read by [parseFloat(displayRangeEl2.value)||40] is never zero
    and never [NaN], so with auto-scale off the clip of a heatmap pass is
    never zero or [NaN] either: a field holding 0 or no number gives 40. *)
Theorem userRange_never_falsy (lastAmp : Num.t) (st : App) :
  Num.truthy (userRange (scene st)) = true
  /\ (Num.truthy (rangeV (scene st)) = false ->
      userRange (scene st) = Num.Fin 40)
  /\ (autoScale (scene st) = false ->
      Num.truthy (Vclip (computeHeatmap lastAmp st)) = true).
Proof.
  assert (H : Num.truthy (userRange (scene st)) = true).
  { unfold userRange, Num.or.
    destruct (Num.truthy (rangeV (scene st))) eqn:E; [exact E|reflexivity]. }
  split; [exact H|]. split.
  - intros E. unfold userRange, Num.or. rewrite E. reflexivity.
  - intros Ha. unfold computeHeatmap, clipValue. simpl. rewrite Ha. exact H.
Qed.

Lemma leb_total (a b : Num.t) :
  a <> Num.NaN -> b <> Num.NaN -> Num.leb a b = false -> Num.leb b a = true.
Proof.
  intros Ha Hb H.
  destruct a as [x| | |], b as [y| | |]; simpl in *;
    try reflexivity; try discriminate; try contradiction.
  destruct (Qle_bool y x) eqn:E; [reflexivity|].
  assert (Hxy : ~ x <= y) by (intros C; apply Qle_bool_iff in C; congruence).
  assert (Hyx : ~ y <= x) by (intros C; apply Qle_bool_iff in C; congruence).
  exfalso. apply Hyx. apply Qlt_le_weak. apply Qnot_le_lt. exact Hxy.
Qed.

Lemma leb_refl (a : Num.t) : a <> Num.NaN -> Num.leb a a = true.
Proof.
  intros Ha. destruct a as [x| | |]; simpl; try reflexivity; try contradiction.
  apply Qle_bool_iff. apply Qle_refl.
Qed.

(** X4: Before the range fix, the manual clip [Math.min(lastAmp, userRange)] was
    never above the observed maximum nor above the user's range, and it was
    the user's range only when that range did not exceed the maximum. *)
Theorem clip_before_fix_is_capped (lastAmp range : Num.t) :
  lastAmp <> Num.NaN -> range <> Num.NaN ->
  Num.leb (clipValue_before false lastAmp range) lastAmp = true
  /\ Num.leb (clipValue_before false lastAmp range) range = true
  /\ (Num.leb range lastAmp = false ->
      clipValue_before false lastAmp range = lastAmp).
Proof.
  intros Ha Hr. unfold clipValue_before, Num.min.
  destruct (Num.leb lastAmp range) eqn:E.
  - destruct lastAmp as [x| | |], range as [y| | |]; simpl in *;
      try contradiction; try discriminate; repeat split; auto;
      try (apply Qle_bool_iff; apply Qle_refl).
  - pose proof (leb_total Ha Hr E) as E'.
    destruct lastAmp as [x| | |], range as [y| | |]; simpl in *;
      try contradiction; try discriminate; repeat split; auto;
      try (apply Qle_bool_iff; apply Qle_refl); try congruence.
Qed.

Lemma clip_before_fix_is_capped_witness :
  Num.leb (clipValue_before false (Num.Fin 90) (Num.Fin 500)) (Num.Fin 90)
  = true.
Proof.
  refine (proj1 (@clip_before_fix_is_capped (Num.Fin 90) (Num.Fin 500) _ _));
    discriminate.
Defined.

(** * Properties of the page script *)

Module PageFacts.

Import Ascii String.
Import Page.
Local Open Scope string_scope.
Local Open Scope list_scope.

(** ** Strings *)

Lemma includes_empty (s : string) : includes s "" = true.
Proof. destruct s; reflexivity. Qed.

Lemma lowerChar_idempotent (c : ascii) : lowerChar (lowerChar c) = lowerChar c.
Proof.
  destruct c as [[] [] [] [] [] [] [] []]; vm_compute; reflexivity.
Qed.

Lemma toLowerCase_idempotent (s : string) :
  toLowerCase (toLowerCase s) = toLowerCase s.
Proof.
  induction s as [|c s IH]; simpl; [reflexivity|].
  rewrite lowerChar_idempotent, IH. reflexivity.
Qed.

(** ** Search *)

Lemma searchCard_empty (card : Card) :
  searchCard "" card
  = {| countryName := countryName card;
       dishes := map (setDishDisplay Block) (dishes card);
       cardDisplay := Block |}.
Proof. unfold searchCard. rewrite includes_empty. reflexivity. Qed.

(** X6: clearing the search box brings everything back: after a search for the
    empty string every card is displayed and so is every dish of every
    card. *)
Theorem search_empty_shows_all (cs : list Card) (card : Card) :
  In card (search "" cs) ->
  cardDisplay card = Block
  /\ (forall d, In d (dishes card) -> dishDisplay d = Block).
Proof.
  unfold search. simpl. intros Hin.
  apply in_map_iff in Hin. destruct Hin as (c0 & <- & _).
  rewrite searchCard_empty. simpl. split; [reflexivity|].
  intros d Hd. apply in_map_iff in Hd. destruct Hd as (d0 & <- & _).
  reflexivity.
Qed.

(** A card and a dish that an earlier search had hidden. *)
Lemma search_empty_shows_all_witness :
  cardDisplay
    (searchCard ""
       {| countryName := "Italy";
          dishes := [ {| textContent := "Pizza"; classList := ["popular"];
                         dishDisplay := Hidden |} ];
          cardDisplay := Hidden |}) = Block
  /\ (forall d,
       In d (dishes
               (searchCard ""
                  {| countryName := "Italy";
                     dishes := [ {| textContent := "Pizza";
                                    classList := ["popular"];
                                    dishDisplay := Hidden |} ];
                     cardDisplay := Hidden |})) ->
       dishDisplay d = Block).
Proof.
  apply (@search_empty_shows_all
    [ {| countryName := "Italy";
         dishes := [ {| textContent := "Pizza"; classList := ["popular"];
                        dishDisplay := Hidden |} ];
         cardDisplay := Hidden |} ]).
  left. reflexivity.
Defined.

(** X7: after a search a card is displayed exactly when the term is empty, the
    country name contains it, or one of its dishes does (all compared in
    lower case); a card that is hidden has all its dishes hidden, and every
    dish of a card whose country name matches is displayed. *)
Theorem search_card_visibility (value : string) (card : Card) :
  let term := toLowerCase value in
  let card' := searchCard term card in
  (cardDisplay card' = Block <->
   term = ""
   \/ includes (toLowerCase (countryName card)) term = true
   \/ exists d, In d (dishes card) /\ dishMatches term d = true)
  /\ (cardDisplay card' = Block \/ cardDisplay card' = Hidden)
  /\ (cardDisplay card' = Hidden ->
      forall d, In d (dishes card') -> dishDisplay d = Hidden)
  /\ (includes (toLowerCase (countryName card)) term = true ->
      forall d, In d (dishes card') -> dishDisplay d = Block).
Proof.
  intros term card'. subst card'. unfold searchCard.
  destruct (includes (toLowerCase (countryName card)) term) eqn:Ec; simpl.
  - repeat split; auto; try discriminate.
    intros _ d Hd. apply in_map_iff in Hd. destruct Hd as (d0 & <- & _).
    reflexivity.
  - destruct (existsb (dishMatches term) (dishes card)) eqn:Ed; simpl.
    + repeat split; auto; try discriminate.
      intros _. right. right. apply existsb_exists in Ed. exact Ed.
    + assert (Hnone : forall d, In d (dishes card) -> dishMatches term d = false).
      { intros d Hd. destruct (dishMatches term d) eqn:E; [|reflexivity].
        rewrite <- Ed. symmetry. apply existsb_exists. exists d. split; assumption. }
      destruct (String.eqb term "") eqn:Et.
      * apply String.eqb_eq in Et. repeat split; auto; try discriminate.
      * repeat split; auto; try discriminate.
        -- intros [Ht|[Hc|(d & Hd & Hm)]].
           ++ apply String.eqb_neq in Et. contradiction.
           ++ discriminate.
           ++ rewrite (Hnone d Hd) in Hm. discriminate.
        -- intros _ d Hd. apply in_map_iff in Hd. destruct Hd as (d0 & <- & Hd0).
           rewrite (Hnone d0 Hd0). reflexivity.
Qed.

Lemma searchCard_forgets_display (term : string) (c1 c2 : Card) :
  countryName c1 = countryName c2 ->
  map textContent (dishes c1) = map textContent (dishes c2) ->
  map classList (dishes c1) = map classList (dishes c2) ->
  searchCard term c1 = searchCard term c2.
Proof.
  intros Hn Ht Hc. unfold searchCard. rewrite Hn.
  assert (Hmatch : map (dishMatches term) (dishes c1)
                   = map (dishMatches term) (dishes c2)).
  { unfold dishMatches.
    rewrite <- (map_map textContent (fun t => includes (toLowerCase t) term)).
    rewrite <- (map_map textContent (fun t => includes (toLowerCase t) term)
                  (dishes c2)).
    rewrite Ht. reflexivity. }
  assert (Hex : existsb (dishMatches term) (dishes c1)
                = existsb (dishMatches term) (dishes c2)).
  { clear - Hmatch. revert Hmatch. generalize (dishes c2).
    induction (dishes c1) as [|a l IH]; intros [|b l2] H; simpl in *;
      try discriminate; [reflexivity|].
    injection H as Hab Hl. rewrite Hab, (IH l2 Hl). reflexivity. }
  assert (Hall : forall v, map (setDishDisplay v) (dishes c1)
                           = map (setDishDisplay v) (dishes c2)).
  { intros v. clear - Ht Hc. revert Ht Hc. generalize (dishes c2).
    induction (dishes c1) as [|a l IH]; intros [|b l2] H1 H2; simpl in *;
      try discriminate; [reflexivity|].
    injection H1 as Ha Hl. injection H2 as Ha' Hl'.
    rewrite (IH l2 Hl Hl'). unfold setDishDisplay. rewrite Ha, Ha'. reflexivity. }
  assert (Hsel : map (fun d => if dishMatches term d then setDishDisplay Block d
                               else setDishDisplay Hidden d) (dishes c1)
                 = map (fun d => if dishMatches term d then setDishDisplay Block d
                                 else setDishDisplay Hidden d) (dishes c2)).
  { clear - Ht Hc. revert Ht Hc. generalize (dishes c2).
    induction (dishes c1) as [|a l IH]; intros [|b l2] H1 H2; simpl in *;
      try discriminate; [reflexivity|].
    injection H1 as Ha Hl. injection H2 as Ha' Hl'.
    rewrite (IH l2 Hl Hl'). unfold dishMatches, setDishDisplay.
    rewrite Ha, Ha'. reflexivity. }
  rewrite Hex, Hall, Hsel. reflexivity.
Qed.

Lemma filterCard_keeps_text (filter : string) (c : Card) :
  countryName (filterCard filter c) = countryName c
  /\ map textContent (dishes (filterCard filter c)) = map textContent (dishes c)
  /\ map classList (dishes (filterCard filter c)) = map classList (dishes c).
Proof.
  unfold filterCard. simpl. rewrite !map_map. repeat split;
    apply map_ext; intros d; unfold filterDish;
    destruct (String.eqb filter "all"); try reflexivity;
    destruct (contains (classList d) filter); reflexivity.
Qed.

Lemma searchCard_keeps_text (term : string) (c : Card) :
  countryName (searchCard term c) = countryName c
  /\ map textContent (dishes (searchCard term c)) = map textContent (dishes c)
  /\ map classList (dishes (searchCard term c)) = map classList (dishes c).
Proof.
  unfold searchCard.
  destruct (includes (toLowerCase (countryName c)) term); simpl;
    rewrite !map_map; repeat split; try (apply map_ext; intros d);
    try destruct (dishMatches term d); reflexivity.
Qed.

(** X8: a search starts from the texts alone: what an earlier search or a filter
    button left displayed or hidden has no influence on its result, so a
    search after a filter click shows what the search alone would show. *)
Theorem search_forgets_filter (value value' filter : string) (cs : list Card) :
  search value (map (filterCard filter) cs) = search value cs
  /\ search value (search value' cs) = search value cs.
Proof.
  unfold search. rewrite !map_map. split; apply map_ext; intros c;
    apply searchCard_forgets_display.
  - apply filterCard_keeps_text.
  - apply filterCard_keeps_text.
  - apply filterCard_keeps_text.
  - apply searchCard_keeps_text.
  - apply searchCard_keeps_text.
  - apply searchCard_keeps_text.
Qed.

Lemma existsb_as_map (A : Type) (f : A -> bool) (l : list A) :
  existsb f l = existsb (fun b => b) (map f l).
Proof.
  induction l as [|a l IH]; simpl; [reflexivity|]. rewrite IH. reflexivity.
Qed.

(** X9: the search is blind to case (of ASCII letters) on both sides: two
    terms equal up to case, applied to two cards whose country names and
    dish texts are equal up to case, display or hide the card and each of
    its dishes alike; in particular a term typed in capitals finds what the
    same term in lower case finds. *)
Theorem search_case_insensitive (value1 value2 : string) (c1 c2 : Card) :
  toLowerCase value1 = toLowerCase value2 ->
  toLowerCase (countryName c1) = toLowerCase (countryName c2) ->
  map (fun d => toLowerCase (textContent d)) (dishes c1)
  = map (fun d => toLowerCase (textContent d)) (dishes c2) ->
  cardDisplay (searchCard (toLowerCase value1) c1)
  = cardDisplay (searchCard (toLowerCase value2) c2)
  /\ map dishDisplay (dishes (searchCard (toLowerCase value1) c1))
     = map dishDisplay (dishes (searchCard (toLowerCase value2) c2)).
Proof.
  intros Hv Hn Ht. rewrite <- Hv. set (term := toLowerCase value1).
  assert (Hm : map (dishMatches term) (dishes c1)
               = map (dishMatches term) (dishes c2)).
  { unfold dishMatches.
    rewrite <- (map_map (fun d => toLowerCase (textContent d))
                  (fun t => includes t term) (dishes c1)).
    rewrite <- (map_map (fun d => toLowerCase (textContent d))
                  (fun t => includes t term) (dishes c2)).
    rewrite Ht. reflexivity. }
  unfold searchCard. rewrite Hn.
  destruct (includes (toLowerCase (countryName c2)) term); simpl.
  - split; [reflexivity|]. rewrite !map_map. simpl.
    rewrite <- (map_map (dishMatches term) (fun _ => Block) (dishes c1)).
    rewrite <- (map_map (dishMatches term) (fun _ => Block) (dishes c2)).
    rewrite Hm. reflexivity.
  - rewrite (existsb_as_map _ (dishes c1)), (existsb_as_map _ (dishes c2)), Hm.
    split; [reflexivity|]. rewrite !map_map.
    assert (Hd : forall ds,
               map (fun d => dishDisplay
                               (if dishMatches term d
                                then setDishDisplay Block d
                                else setDishDisplay Hidden d)) ds
               = map (fun b : bool => if b then Block else Hidden)
                     (map (dishMatches term) ds)).
    { intros ds. rewrite map_map. apply map_ext. intros d.
      destruct (dishMatches term d); reflexivity. }
    rewrite !Hd, Hm. reflexivity.
Qed.

(** "PIZ" against a card in which only a dish, "Pizza Margherita", matches. *)
Lemma search_case_insensitive_witness :
  cardDisplay
    (searchCard (toLowerCase "PIZ")
       {| countryName := "Italy";
          dishes := [ {| textContent := "Pizza Margherita";
                         classList := ["popular"]; dishDisplay := Unset |} ];
          cardDisplay := Unset |})
  = cardDisplay
      (searchCard (toLowerCase "piz")
         {| countryName := "ITALY";
            dishes := [ {| textContent := "pizza margherita";
                           classList := []; dishDisplay := Hidden |} ];
            cardDisplay := Hidden |}).
Proof.
  refine (proj1 (@search_case_insensitive "PIZ" "piz" _ _ _ _ _));
    reflexivity.
Defined.

(** ** Filter *)

Lemma filterDish_forgets (f g : string) (d : Dish) :
  filterDish f (filterDish g d) = filterDish f d.
Proof.
  unfold filterDish.
  destruct (String.eqb g "all"); [|destruct (contains (classList d) g)];
    simpl; destruct (String.eqb f "all"); try reflexivity;
    destruct (contains (classList d) f); reflexivity.
Qed.

(** X10: filter clicks do not pile up: the dishes a section shows after a click
    depend on the last button clicked only, and ['all'] shows every dish of
    the section. *)
Theorem filter_last_click_wins (f g : string) (s : Continent) :
  filterSection f (filterSection g s) = filterSection f s
  /\ (forall c d, In c (cards (filterSection "all" s)) -> In d (dishes c) ->
      dishDisplay d = Block).
Proof.
  split.
  - unfold filterSection. simpl. f_equal. rewrite map_map.
    apply map_ext. intros c. unfold filterCard. simpl. f_equal.
    rewrite map_map. apply map_ext. intros d. apply filterDish_forgets.
  - intros c d Hc Hd. simpl in Hc.
    apply in_map_iff in Hc. destruct Hc as (c0 & <- & _).
    simpl in Hd. apply in_map_iff in Hd. destruct Hd as (d0 & <- & _).
    reflexivity.
Qed.

(** X11: the numbers [countDishes] logs agree with the filters: the popular
    count is the number of dishes the ['popular'] button shows, the niche
    count the number the ['niche'] button shows. *)
Theorem countDishes_matches_filters (ds : list Dish) :
  countDishes ds
  = (List.length (List.filter shown (map (filterDish "popular") ds)),
     List.length (List.filter shown (map (filterDish "niche") ds)),
     (List.length (List.filter shown (map (filterDish "popular") ds))
      + List.length (List.filter shown (map (filterDish "niche") ds)))%nat).
Proof.
  assert (H : forall name, String.eqb name "all" = false ->
              countClass name ds
              = List.length (List.filter shown (map (filterDish name) ds))).
  { intros name Hn. unfold countClass.
    induction ds as [|d l IH]; [reflexivity|]. simpl.
    unfold filterDish at 1. rewrite Hn.
    destruct (contains (classList d) name); simpl; rewrite IH; reflexivity. }
  unfold countDishes. rewrite !H by reflexivity. reflexivity.
Qed.

(** ** Filter buttons *)

Lemma nth_error_onButton (f : Button -> Button) (i : nat) (bs : list Button)
  (j : nat) :
  nth_error (onButton f i bs) j
  = if Nat.eqb j i then option_map f (nth_error bs j) else nth_error bs j.
Proof.
  revert i j. induction bs as [|b l IH]; intros i j.
  - destruct i, j; simpl; try reflexivity.
    destruct (Nat.eqb j i); reflexivity.
  - destruct i as [|i], j as [|j]; simpl; try reflexivity. apply IH.
Qed.

Lemma length_onButton (f : Button -> Button) (i : nat) (bs : list Button) :
  List.length (onButton f i bs) = List.length bs.
Proof.
  revert i. induction bs as [|b l IH]; intros [|i]; simpl;
    try reflexivity. rewrite IH. reflexivity.
Qed.

Lemma buttonEvent_length (bs : list Button) (e : ButtonEvent) :
  List.length (buttonEvent bs e) = List.length bs.
Proof.
  destruct e; simpl; rewrite length_onButton; [apply length_map| |];
    reflexivity.
Qed.

Lemma buttonEvent_oneActive (k : nat) (bs : list Button) (e : ButtonEvent) :
  oneActive k bs ->
  oneActive (match e with Click i => i | _ => k end) (buttonEvent bs e).
Proof.
  intros Hk j b Hb. destruct e as [i|i|i]; simpl in Hb;
    rewrite nth_error_onButton in Hb.
  - rewrite nth_error_map in Hb.
    destruct (Nat.eqb j i); destruct (nth_error bs j) as [b0|]; simpl in Hb;
      try discriminate; injection Hb as <-; simpl; split; reflexivity.
  - destruct (Nat.eqb j i).
    + destruct (nth_error bs j) as [b0|] eqn:E; [|discriminate].
      simpl in Hb. injection Hb as <-. specialize (Hk j b0 E).
      unfold mouseenter. destruct (Nat.eqb j k).
      * destruct Hk as [Hbg Hc]. rewrite Hbg. simpl.
        split; try reflexivity; try assumption.
      * destruct Hk as [Hc Hbg]. rewrite Hbg. simpl.
        split; try reflexivity; try assumption.
    + exact (Hk j b Hb).
  - destruct (Nat.eqb j i).
    + destruct (nth_error bs j) as [b0|] eqn:E; [|discriminate].
      simpl in Hb. injection Hb as <-. specialize (Hk j b0 E).
      unfold mouseleave. destruct (Nat.eqb j k).
      * destruct Hk as [Hbg Hc]. rewrite Hc. simpl.
        split; try reflexivity; try assumption.
      * destruct Hk as [Hc Hbg]. rewrite Hc. simpl.
        split; try reflexivity; try assumption.
    + exact (Hk j b Hb).
Qed.

Lemma events_oneActive (events : list ButtonEvent) :
  forall k bs, oneActive k bs ->
  oneActive (fold_left (fun k e => match e with Click i => i | _ => k end)
                       events k)
            (fold_left buttonEvent events bs).
Proof.
  induction events as [|e l IH]; intros k bs Hk; simpl; [exact Hk|].
  apply IH. apply buttonEvent_oneActive. exact Hk.
Qed.

Lemma events_length (events : list ButtonEvent) :
  forall bs, List.length (fold_left buttonEvent events bs) = List.length bs.
Proof.
  induction events as [|e l IH]; intros bs; simpl; [reflexivity|].
  rewrite IH. apply buttonEvent_length.
Qed.

Lemma buttons_oneActive : oneActive 0 buttons.
Proof.
  intros j b Hb. destruct j as [|[|[|j]]]; simpl in Hb;
    try (injection Hb as <-; simpl; split; reflexivity).
  destruct j; discriminate.
Qed.

(** X12: through any run of clicks and hovers on the three filter buttons exactly
    one button shows as active, the one clicked last (the ['all'] button
    before any click): a button has the primary background exactly when its
    index is that of the last click, and hovering never changes which one it
    is. *)
Theorem one_filter_button_active (events : list ButtonEvent) (j : nat)
  (b : Button) :
  nth_error (fold_left buttonEvent events buttons) j = Some b ->
  isActive b = Nat.eqb j (lastClicked events)
  /\ List.length (fold_left buttonEvent events buttons) = 3%nat.
Proof.
  intros Hb. split.
  - pose proof (@events_oneActive events 0%nat buttons buttons_oneActive j b Hb) as H.
    unfold lastClicked, isActive.
    destruct (Nat.eqb j _).
    + destruct H as [-> _]. reflexivity.
    + destruct H as [_ H]. exact H.
  - rewrite events_length. reflexivity.
Qed.

Lemma one_filter_button_active_witness :
  isActive (createButton "popular")
  = Nat.eqb 1 (lastClicked [MouseEnter 1; MouseLeave 1]).
Proof.
  refine (proj1 (@one_filter_button_active [MouseEnter 1; MouseLeave 1]
                   1 (createButton "popular") _)).
  reflexivity.
Defined.

(** ** Keyboard navigation *)

Lemma find_first (A : Type) (P : A -> bool) (l : list A) (a : A) :
  find P l = Some a ->
  exists l1 l2, l = l1 ++ a :: l2 /\ P a = true
                /\ (forall b, In b l1 -> P b = false).
Proof.
  induction l as [|x l IH]; intros H; simpl in H; [discriminate|].
  destruct (P x) eqn:E.
  - injection H as <-. exists [], l. repeat split; [exact E|intros b []].
  - destruct (IH H) as (l1 & l2 & -> & Ha & Hl1).
    exists (x :: l1), l2. repeat split; [exact Ha|].
    intros b [<-|Hb]; [exact E|apply Hl1, Hb].
Qed.

Lemma sorted_split (A : Type) (R : A -> A -> Prop) (l1 l2 : list A) (a : A) :
  StronglySorted R (l1 ++ a :: l2) ->
  (forall b, In b l1 -> R b a) /\ (forall b, In b l2 -> R a b).
Proof.
  induction l1 as [|x l IH]; simpl; intros H.
  - apply StronglySorted_inv in H. destruct H as [_ H].
    split; [intros b []|]. intros b Hb.
    rewrite Forall_forall in H. apply H, Hb.
  - apply StronglySorted_inv in H. destruct H as [Hs Hx].
    destruct (IH Hs) as [H1 H2]. split; [|exact H2].
    intros b [<-|Hb]; [|apply H1, Hb].
    rewrite Forall_forall in Hx. apply Hx. apply in_or_app. right. left.
    reflexivity.
Qed.

Lemma nextSection_nearest (currentScroll : Q) (sections : list Continent)
  (s : Continent) :
  inDocumentOrder sections ->
  nextSection currentScroll sections = Some s ->
  In s sections
  /\ currentScroll + 100 < offsetTop s
  /\ (forall s', In s' sections -> currentScroll + 100 < offsetTop s' ->
      offsetTop s <= offsetTop s').
Proof.
  intros Hsorted H. unfold nextSection in H.
  destruct (find_first _ _ H) as (l1 & l2 & -> & Hs & Hl1).
  destruct (sorted_split _ _ _ Hsorted) as [_ Hafter].
  apply negb_true_iff in Hs.
  assert (Hlt : currentScroll + 100 < offsetTop s).
  { apply Qnot_le_lt. intros C. apply Qle_bool_iff in C. congruence. }
  repeat split.
  - apply in_or_app. right. left. reflexivity.
  - exact Hlt.
  - intros s' Hin Hs'. apply in_app_or in Hin.
    destruct Hin as [Hin|[<-|Hin]].
    + specialize (Hl1 s' Hin). apply negb_false_iff in Hl1.
      apply Qle_bool_iff in Hl1. exfalso.
      apply (Qlt_irrefl (currentScroll + 100)).
      eapply Qlt_le_trans; [exact Hs'|exact Hl1].
    + apply Qle_refl.
    + apply Hafter, Hin.
Qed.

(** X13: with the sections in document order, ArrowDown scrolls whenever
    some section starts more than 100 pixels below the current scroll
    position, and the section it scrolls to is the nearest of those; when no
    section starts that far below, it scrolls nowhere. *)
Theorem arrow_down_nearest_below (currentScroll : Q)
  (sections : list Continent) :
  inDocumentOrder sections ->
  ((exists t, In t sections /\ currentScroll + 100 < offsetTop t) ->
   exists s,
     keydown ArrowDown currentScroll sections = Some s
     /\ In s sections
     /\ currentScroll + 100 < offsetTop s
     /\ (forall s', In s' sections -> currentScroll + 100 < offsetTop s' ->
         offsetTop s <= offsetTop s'))
  /\ ((forall t, In t sections -> offsetTop t <= currentScroll + 100) ->
      keydown ArrowDown currentScroll sections = None).
Proof.
  intros Hsorted. simpl. split.
  - intros (t & Hin & Ht).
    destruct (nextSection currentScroll sections) as [s|] eqn:E.
    + exists s. split; [reflexivity|].
      apply nextSection_nearest; assumption.
    + exfalso. unfold nextSection in E.
      pose proof (proj1 (find_none_all _ _) E t Hin) as Hf.
      apply negb_false_iff in Hf. apply Qle_bool_iff in Hf.
      apply (Qlt_irrefl (currentScroll + 100)).
      eapply Qlt_le_trans; [exact Ht|exact Hf].
  - intros Hall. unfold nextSection. apply find_none_all.
    intros t Hin. apply negb_false_iff. apply Qle_bool_iff. apply Hall, Hin.
Qed.

(** From the top of a page with sections at 40, 900 and 1800: the section
    at 40 is too near, the one at 900 is the target. *)
Lemma arrow_down_nearest_below_witness :
  exists s,
    keydown ArrowDown 0
      [ {| sectionId := "europe"; offsetTop := 40; cards := [] |};
      {| sectionId := "asia"; offsetTop := 900; cards := [] |};
      {| sectionId := "africa"; offsetTop := 1800; cards := [] |} ]
    = Some s
    /\ In s
         [ {| sectionId := "europe"; offsetTop := 40; cards := [] |};
      {| sectionId := "asia"; offsetTop := 900; cards := [] |};
      {| sectionId := "africa"; offsetTop := 1800; cards := [] |} ]
    /\ 0 + 100 < offsetTop s
    /\ (forall s',
          In s'
             [ {| sectionId := "europe"; offsetTop := 40; cards := [] |};
      {| sectionId := "asia"; offsetTop := 900; cards := [] |};
      {| sectionId := "africa"; offsetTop := 1800; cards := [] |} ] ->
          0 + 100 < offsetTop s' -> offsetTop s <= offsetTop s').
Proof.
  refine (proj1 (@arrow_down_nearest_below 0
    [ {| sectionId := "europe"; offsetTop := 40; cards := [] |};
      {| sectionId := "asia"; offsetTop := 900; cards := [] |};
      {| sectionId := "africa"; offsetTop := 1800; cards := [] |} ] _) _).
  - unfold inDocumentOrder.
    repeat (constructor; [|repeat constructor; simpl; apply Qle_bool_iff; reflexivity]).
    constructor.
  - exists {| sectionId := "africa"; offsetTop := 1800; cards := [] |}.
    split; [right; right; left; reflexivity|reflexivity].
Defined.

Lemma prevSection_nearest (currentScroll : Q) (sections : list Continent)
  (s : Continent) :
  inDocumentOrder sections ->
  prevSection currentScroll sections = Some s ->
  In s sections
  /\ offsetTop s < currentScroll - 100
  /\ (forall s', In s' sections -> offsetTop s' < currentScroll - 100 ->
      offsetTop s' <= offsetTop s).
Proof.
  intros Hsorted H. unfold prevSection in H.
  destruct (find_first _ _ H) as (l1 & l2 & Hrev & Hs & Hl1).
  assert (Hsec : sections = rev l2 ++ s :: rev l1).
  { rewrite <- (rev_involutive sections), Hrev, rev_app_distr. simpl.
    rewrite <- app_assoc. reflexivity. }
  rewrite Hsec in Hsorted.
  destruct (sorted_split _ _ _ Hsorted) as [Hbefore _].
  apply negb_true_iff in Hs.
  assert (Hlt : offsetTop s < currentScroll - 100).
  { apply Qnot_le_lt. intros C. apply Qle_bool_iff in C. congruence. }
  repeat split.
  - rewrite Hsec. apply in_or_app. right. left. reflexivity.
  - exact Hlt.
  - intros s' Hin Hs'. rewrite Hsec in Hin. apply in_app_or in Hin.
    destruct Hin as [Hin|[<-|Hin]].
    + apply Hbefore, Hin.
    + apply Qle_refl.
    + apply in_rev in Hin. specialize (Hl1 s' Hin).
      apply negb_false_iff in Hl1. apply Qle_bool_iff in Hl1. exfalso.
      apply (Qlt_irrefl (offsetTop s')).
      eapply Qlt_le_trans; [exact Hs'|exact Hl1].
Qed.

(** X14: with the sections in document order, ArrowUp scrolls whenever some
    section starts more than 100 pixels above the current scroll position,
    and the section it scrolls to is the nearest of those; when no section
    starts that far above, it scrolls nowhere. *)
Theorem arrow_up_nearest_above (currentScroll : Q)
  (sections : list Continent) :
  inDocumentOrder sections ->
  ((exists t, In t sections /\ offsetTop t < currentScroll - 100) ->
   exists s,
     keydown ArrowUp currentScroll sections = Some s
     /\ In s sections
     /\ offsetTop s < currentScroll - 100
     /\ (forall s', In s' sections -> offsetTop s' < currentScroll - 100 ->
         offsetTop s' <= offsetTop s))
  /\ ((forall t, In t sections -> currentScroll - 100 <= offsetTop t) ->
      keydown ArrowUp currentScroll sections = None).
Proof.
  intros Hsorted. simpl. split.
  - intros (t & Hin & Ht).
    destruct (prevSection currentScroll sections) as [s|] eqn:E.
    + exists s. split; [reflexivity|].
      apply prevSection_nearest; assumption.
    + exfalso. unfold prevSection in E.
      apply in_rev in Hin.
      pose proof (proj1 (find_none_all _ _) E t Hin) as Hf.
      apply negb_false_iff in Hf. apply Qle_bool_iff in Hf.
      apply (Qlt_irrefl (offsetTop t)).
      eapply Qlt_le_trans; [exact Ht|exact Hf].
  - intros Hall. unfold prevSection. apply find_none_all.
    intros t Hin. apply in_rev in Hin.
    apply negb_false_iff. apply Qle_bool_iff. apply Hall, Hin.
Qed.

(** From the last section of the same page: the section at 900 is the
    target, the one at 40 is farther. *)
Lemma arrow_up_nearest_above_witness :
  exists s,
    keydown ArrowUp 1800
      [ {| sectionId := "europe"; offsetTop := 40; cards := [] |};
      {| sectionId := "asia"; offsetTop := 900; cards := [] |};
      {| sectionId := "africa"; offsetTop := 1800; cards := [] |} ]
    = Some s
    /\ In s
         [ {| sectionId := "europe"; offsetTop := 40; cards := [] |};
      {| sectionId := "asia"; offsetTop := 900; cards := [] |};
      {| sectionId := "africa"; offsetTop := 1800; cards := [] |} ]
    /\ offsetTop s < 1800 - 100
    /\ (forall s',
          In s'
             [ {| sectionId := "europe"; offsetTop := 40; cards := [] |};
      {| sectionId := "asia"; offsetTop := 900; cards := [] |};
      {| sectionId := "africa"; offsetTop := 1800; cards := [] |} ] ->
          offsetTop s' < 1800 - 100 -> offsetTop s' <= offsetTop s).
Proof.
  refine (proj1 (@arrow_up_nearest_above 1800
    [ {| sectionId := "europe"; offsetTop := 40; cards := [] |};
      {| sectionId := "asia"; offsetTop := 900; cards := [] |};
      {| sectionId := "africa"; offsetTop := 1800; cards := [] |} ] _) _).
  - unfold inDocumentOrder.
    repeat (constructor; [|repeat constructor; simpl; apply Qle_bool_iff; reflexivity]).
    constructor.
  - exists {| sectionId := "europe"; offsetTop := 40; cards := [] |}.
    split; [left; reflexivity|reflexivity].
Defined.

(** ** Navigation highlighting *)

Lemma find_app_first (A : Type) (P : A -> bool) (l1 l2 : list A) :
  find P (l1 ++ l2)
  = match find P l1 with
    | Some a => Some a
    | None => find P l2
    end.
Proof.
  induction l1 as [|a l IH]; simpl; [reflexivity|].
  destruct (P a); [reflexivity|exact IH].
Qed.

Lemma currentSection_fold (y : Q) (sections : list Continent) :
  forall start,
    fold_left
      (fun current s =>
         if Qle_bool (offsetTop s - 200) y then sectionId s else current)
      sections start
    = match find (fun s => Qle_bool (offsetTop s - 200) y) (rev sections) with
      | Some s => sectionId s
      | None => start
      end.
Proof.
  induction sections as [|a l IH]; intros start; simpl; [reflexivity|].
  rewrite IH, find_app_first.
  destruct (find _ (rev l)); [reflexivity|]. simpl.
  destruct (Qle_bool (offsetTop a - 200) y); reflexivity.
Qed.

(** X15: the section [highlightNav] takes as current is the last one, in document
    order, that starts at most 200 pixels below the scroll position, and the
    empty id when there is none; the links it leaves highlighted are those
    whose [href] is ['#'] followed by that id, whatever was highlighted
    before. *)
Theorem highlightNav_current (y y' : Q) (sections sections' : list Continent)
  (links : list NavLink) :
  currentSection y sections
  = match find (fun s => Qle_bool (offsetTop s - 200) y) (rev sections) with
    | Some s => sectionId s
    | None => ""
    end
  /\ (forall l, In l (highlightNav y sections links) ->
      highlighted l
      = String.eqb (href l) ("#" ++ currentSection y sections)%string)
  /\ highlightNav y sections (highlightNav y' sections' links)
     = highlightNav y sections links.
Proof.
  split; [apply currentSection_fold|]. split.
  - intros l Hl. unfold highlightNav in Hl.
    apply in_map_iff in Hl. destruct Hl as (l0 & <- & _).
    unfold highlighted. simpl.
    destruct (String.eqb (href l0) _); reflexivity.
  - unfold highlightNav. rewrite map_map. apply map_ext. intros l. reflexivity.
Qed.

Lemma no_href_no_highlight (target : string) (links : list NavLink) :
  ~ In target (map href links) ->
  List.filter highlighted
    (map (fun link =>
            {| href := href link;
               linkBackground :=
                 if String.eqb (href link) target
                 then "rgba(255, 255, 255, 0.2)" else "" |}) links)
  = [].
Proof.
  induction links as [|l rest IH]; intros Hn; simpl; [reflexivity|].
  simpl in Hn.
  destruct (String.eqb (href l) target) eqn:E.
  - apply String.eqb_eq in E. exfalso. apply Hn. left. exact E.
  - unfold highlighted at 1. simpl. apply IH. intros C. apply Hn. right. exact C.
Qed.

(** X16: with links that all point to different targets, [highlightNav] leaves
    at most one link highlighted. *)
Theorem highlightNav_at_most_one (y : Q) (sections : list Continent)
  (links : list NavLink) :
  NoDup (map href links) ->
  (List.length (List.filter highlighted (highlightNav y sections links)) <= 1)%nat.
Proof.
  unfold highlightNav.
  generalize ("#" ++ currentSection y sections)%string as target.
  intros target. induction links as [|l rest IH]; intros Hnd; simpl; [lia|].
  simpl in Hnd. apply NoDup_cons_iff in Hnd. destruct Hnd as [Hl Hrest].
  destruct (String.eqb (href l) target) eqn:E.
  - apply String.eqb_eq in E. rewrite E in Hl.
    unfold highlighted at 1. simpl.
    rewrite (no_href_no_highlight _ _ Hl). simpl. lia.
  - unfold highlighted at 1. simpl. apply IH, Hrest.
Qed.

Lemma highlightNav_at_most_one_witness :
  (List.length
     (List.filter highlighted
        (highlightNav 1000
           [ {| sectionId := "europe"; offsetTop := 40; cards := [] |};
             {| sectionId := "asia"; offsetTop := 900; cards := [] |} ]
           [ {| href := "#europe"; linkBackground := "" |};
             {| href := "#asia"; linkBackground := "" |} ])) <= 1)%nat.
Proof.
  apply highlightNav_at_most_one.
  repeat constructor; simpl; intuition discriminate.
Defined.

(** ** Scroll indicator and parallax *)



(** X18: on a page as tall as its window nothing guards the division: the
    percentage is [NaN] at the top of the page. *)
Theorem scrolled_unscrollable_page (h : Q) :
  scrolled (Num.Fin 0) (Num.Fin 0) (Num.Fin h) (Num.Fin h) = Num.NaN.
Proof.
  unfold scrolled, Num.or, NumOps.sub, NumOps.add, NumOps.opp, NumOps.div.
  simpl.
  assert (E : Qeq_bool (h + - h) 0 = true) by (apply Qeq_bool_iff; ring).
  rewrite E. reflexivity.
Qed.



(** ** Animated counter *)

Lemma ticks_succ (n : nat) (target : Num.t) :
  forall c, ticks (S n) target c = tick target (ticks n target c).
Proof.
  induction n as [|m IH]; intros c; [reflexivity|].
  change (ticks (S (S m)) target c) with (ticks (S m) target (tick target c)).
  rewrite IH. reflexivity.
Qed.

Lemma ticks_stopped (n : nat) (target : Num.t) (c : Counter) :
  timerSet c = false -> ticks n target c = c.
Proof.
  intros Hc. induction n as [|m IH]; [reflexivity|].
  rewrite ticks_succ, IH. unfold tick. rewrite Hc. reflexivity.
Qed.

Lemma ticks_add (n m : nat) (target : Num.t) (c : Counter) :
  ticks (n + m) target c = ticks m target (ticks n target c).
Proof.
  revert c. induction n as [|k IH]; intros c; [reflexivity|].
  simpl. apply IH.
Qed.

Section PositiveTarget.

Variable T : Q.
Hypothesis T_pos : 0 < T.

(** While fewer than 50 ticks have fired the counter runs, holds
    [n * (T / 50)] and shows its floor. *)
Lemma counter_running (n : nat) :
  (n < 50)%nat ->
  exists q,
    ticks n (Num.Fin T) animateCounter
    = {| current := Num.Fin q;
         text := ShowNumber (Num.Fin (inject_Z (Qfloor q)));
         timerSet := true |}
    /\ q == inject_Z (Z.of_nat n) * (T / 50).
Proof.
  induction n as [|m IH]; intros Hn.
  - exists 0. split; [reflexivity|]. simpl. ring.
  - destruct IH as (q & Hq & Hval); [lia|].
    exists (q + T / 50).
    assert (Hnext : q + T / 50 == inject_Z (Z.of_nat (S m)) * (T / 50)).
    { rewrite Nat2Z.inj_succ. unfold Z.succ. rewrite inject_Z_plus, Hval.
      ring. }
    split; [|exact Hnext].
    rewrite ticks_succ, Hq. unfold tick. simpl.
    assert (Hlt : Qle_bool T (q + T / 50) = false).
    { destruct (Qle_bool T (q + T / 50)) eqn:E; [|reflexivity].
      apply Qle_bool_iff in E. rewrite Hnext in E. exfalso.
      assert (Hk : inject_Z (Z.of_nat (S m)) <= 49).
      { change (inject_Z (Z.of_nat (S m)) <= inject_Z 49).
        rewrite <- Zle_Qle. lia. }
      set (u := T / 50) in *.
      assert (Hu : T == 50 * u) by (unfold u; field).
      assert (Hupos : 0 < u) by lra.
      nra. }
    rewrite Hlt. reflexivity.
Qed.

Lemma counter_done :
  ticks 50 (Num.Fin T) animateCounter
  = {| current := current (ticks 50 (Num.Fin T) animateCounter);
       text := ShowPlus (Num.Fin T);
       timerSet := false |}.
Proof.
  destruct (counter_running (n := 49)) as (q & Hq & Hval); [lia|].
  change 50%nat with (S 49). rewrite ticks_succ, Hq. unfold tick. simpl.
  assert (Hge : Qle_bool T (q + T / 50) = true).
  { apply Qle_bool_iff. rewrite Hval.
    replace (inject_Z (Z.of_nat 49)) with (49 : Q) by reflexivity.
    set (u := T / 50). assert (Hu : T == 50 * u) by (unfold u; field).
    lra. }
  rewrite Hge. reflexivity.
Qed.

End PositiveTarget.

(** X20: for a positive target the counter keeps running through its first
    49 ticks: after [n < 50] ticks its value is within half an increment of
    [n * target / 50] and below the target, and the element shows the floor
    of that value; by the 51st tick it has ended, showing the target
    followed by [+] with its timer cleared.  (Whether the end comes at the
    50th or the 51st tick is a matter of rounding and is left open.) *)
Theorem counter_reaches_target (T : Q) (n : nat) :
  0 < T ->
  ((n < 50)%nat ->
   exists q,
     current (ticks n (Num.Fin T) animateCounter) = Num.Fin q
     /\ (inject_Z (Z.of_nat n) - (1 # 2)) * (T / 50) <= q
     /\ q <= (inject_Z (Z.of_nat n) + (1 # 2)) * (T / 50)
     /\ q < T
     /\ text (ticks n (Num.Fin T) animateCounter)
        = ShowNumber (Num.Fin (inject_Z (Qfloor q)))
     /\ timerSet (ticks n (Num.Fin T) animateCounter) = true)
  /\ ((51 <= n)%nat ->
      text (ticks n (Num.Fin T) animateCounter) = ShowPlus (Num.Fin T)
      /\ timerSet (ticks n (Num.Fin T) animateCounter) = false).
Proof.
  intros HT. split.
  - intros Hn. destruct (counter_running HT Hn) as (q & Hq & Hval).
    exists q. rewrite Hq. simpl.
    assert (Hk : inject_Z (Z.of_nat n) <= 49).
    { change (inject_Z (Z.of_nat n) <= inject_Z 49).
      rewrite <- Zle_Qle. lia. }
    set (u := T / 50) in *. assert (Hu : T == 50 * u) by (unfold u; field).
    assert (Hupos : 0 < u) by lra.
    repeat split; try reflexivity; rewrite Hval; nra.
  - intros Hn. replace n with (50 + (n - 50))%nat by lia.
    rewrite ticks_add, (counter_done HT).
    rewrite ticks_stopped by reflexivity. split; reflexivity.
Qed.

Lemma counter_reaches_target_witness :
  text (ticks 51 (Num.Fin 7) animateCounter) = ShowPlus (Num.Fin 7)
  /\ timerSet (ticks 51 (Num.Fin 7) animateCounter) = false.
Proof.
  refine (proj2 (@counter_reaches_target 7 51 _) _).
  - reflexivity.
  - apply Nat.le_refl.
Defined.

(** X21: a target of zero or below ends the animation at its first tick: the
    element shows the target followed by [+] and the timer is cleared. *)
Theorem counter_nonpositive_target (T : Q) (n : nat) :
  T <= 0 ->
  text (ticks (S n) (Num.Fin T) animateCounter) = ShowPlus (Num.Fin T)
  /\ timerSet (ticks (S n) (Num.Fin T) animateCounter) = false.
Proof.
  intros HT.
  assert (H1 : tick (Num.Fin T) animateCounter
               = {| current := Num.Fin (0 + T / 50);
                    text := ShowPlus (Num.Fin T); timerSet := false |}).
  { unfold tick, animateCounter. simpl.
    assert (Hge : Qle_bool T (0 + T / 50) = true).
    { apply Qle_bool_iff. set (u := T / 50).
      assert (Hu : T == 50 * u) by (unfold u; field). lra. }
    rewrite Hge. reflexivity. }
  simpl. rewrite H1, ticks_stopped by reflexivity. split; reflexivity.
Qed.

Lemma counter_nonpositive_target_witness :
  text (ticks 1 (Num.Fin 0) animateCounter) = ShowPlus (Num.Fin 0)
  /\ timerSet (ticks 1 (Num.Fin 0) animateCounter) = false.
Proof.
  apply (@counter_nonpositive_target 0 0). apply Qle_refl.
Defined.

(** X22: a target that is not a number (a missing or malformed [data-target])
    never ends the animation: after any number of ticks the element shows
    [NaN] and the timer is still set. *)
Theorem counter_nan_never_stops (n : nat) :
  ticks (S n) Num.NaN animateCounter
  = {| current := Num.NaN; text := ShowNumber Num.NaN; timerSet := true |}.
Proof.
  induction n as [|m IH]; [reflexivity|].
  rewrite ticks_succ, IH. reflexivity.
Qed.


End PageFacts.
